(** * AI_subtitle_generator: the segment pipeline and the subtitle renderer

    A shallow embedding of [subtitle_generator/{utils,llm,segmentation,
    translation,subtitles}.py] and the properties of the pipeline that the
    specification states about them.

    Conventions of the embedding:
    - a Python [str] is the list of its code points ([str := list N]);
      literals are written [lit "..."], which decodes the UTF-8 bytes of the
      Rocq string; [str.strip] and [str.lower] are those of CPython, the
      latter with the case tables of Unicode 14.0;
    - a Python [float] is an IEEE-754 binary64 number, Rocq's primitive
      [float]; conversions to and from [int] go through [SpecFloat];
    - a Python [list] indexed and updated in place is a [list] with stdpp's
      lookup [!!], [<[i:=x]>], [delete], [take] and [drop];
    - the external capabilities (the model backend, the translator) are the
      fields of the class [Capabilities]; code that calls them lives in the
      monad [M], which threads the state of the outside world and records
      every call and every sleep as an [Event];
    - an exception is a result of its own: [None], or [Raised] for
      [chat_llm], handled where the code has a handler and passed on where
      it has none. *)

From Stdlib Require Import ZArith NArith String Ascii Floats.
From stdpp Require Import base option list gmap.

Set Warnings "-inexact-float".
Open Scope N_scope.

(** ** Python strings *)

Definition char := N.
Definition str := list N.

(** UTF-8 decoding of a literal of this file (well-formed by construction). *)
Fixpoint utf8 (bs : list N) : str :=
  match bs with
  | [] => []
  | b0 :: r0 =>
      if b0 <? 128 then b0 :: utf8 r0
      else if b0 <? 224 then
        match r0 with
        | b1 :: r1 => ((b0 - 192) * 64 + (b1 - 128)) :: utf8 r1
        | _ => []
        end
      else if b0 <? 240 then
        match r0 with
        | b1 :: b2 :: r2 =>
            ((b0 - 224) * 4096 + (b1 - 128) * 64 + (b2 - 128)) :: utf8 r2
        | _ => []
        end
      else
        match r0 with
        | b1 :: b2 :: b3 :: r3 =>
            ((b0 - 240) * 262144 + (b1 - 128) * 4096 + (b2 - 128) * 64
             + (b3 - 128)) :: utf8 r3
        | _ => []
        end
  end.

Definition lit (s : string) : str :=
  utf8 (map N_of_ascii (list_ascii_of_string s)).

(** [c.isspace()]: the code points that [str.strip()] removes. *)
Definition isspace (c : char) : bool :=
  ((9 <=? c) && (c <=? 13)) || ((28 <=? c) && (c <=? 32))
  || (c =? 133) || (c =? 160) || (c =? 5760)
  || ((8192 <=? c) && (c <=? 8202))
  || (c =? 8232) || (c =? 8233) || (c =? 8239) || (c =? 8287) || (c =? 12288).

Fixpoint lstrip (s : str) : str :=
  match s with
  | c :: s' => if isspace c then lstrip s' else s
  | [] => []
  end.

Definition rstrip (s : str) : str := reverse (lstrip (reverse s)).

Definition strip (s : str) : str := rstrip (lstrip s).

(** [s.lower()].  CPython lower-cases a string character by character
    ([do_lower] in [Objects/unicodeobject.c]): a capital sigma becomes a
    final or a medial small sigma depending on its neighbours
    ([handle_capital_sigma]), every other character goes through
    [_PyUnicode_ToLowerFull], which reads the tables of the Unicode
    database (version 14.0 in CPython 3.11): the simple lower-case mappings,
    kept here as runs [(first, count, step, target)] that map
    [first + k * step] to [target + k * step] for [k < count], and the code
    points with the properties Cased and Case_Ignorable, kept as ranges. *)
Definition lower_runs : list (N * N * N * N) :=
  [
    (65, 26, 1, 97); (192, 23, 1, 224); (216, 7, 1, 248); (256, 24, 2, 257);
    (306, 3, 2, 307); (313, 8, 2, 314); (330, 23, 2, 331); (376, 1, 1, 255);
    (377, 3, 2, 378); (385, 1, 1, 595); (386, 2, 2, 387); (390, 1, 1, 596);
    (391, 1, 1, 392); (393, 2, 1, 598); (395, 1, 1, 396); (398, 1, 1, 477);
    (399, 1, 1, 601); (400, 1, 1, 603); (401, 1, 1, 402); (403, 1, 1, 608);
    (404, 1, 1, 611); (406, 1, 1, 617); (407, 1, 1, 616); (408, 1, 1, 409);
    (412, 1, 1, 623); (413, 1, 1, 626); (415, 1, 1, 629); (416, 3, 2, 417);
    (422, 1, 1, 640); (423, 1, 1, 424); (425, 1, 1, 643); (428, 1, 1, 429);
    (430, 1, 1, 648); (431, 1, 1, 432); (433, 2, 1, 650); (435, 2, 2, 436);
    (439, 1, 1, 658); (440, 1, 1, 441); (444, 1, 1, 445); (452, 1, 1, 454);
    (453, 1, 1, 454); (455, 1, 1, 457); (456, 1, 1, 457); (458, 1, 1, 460);
    (459, 9, 2, 460); (478, 9, 2, 479); (497, 1, 1, 499); (498, 2, 2, 499);
    (502, 1, 1, 405); (503, 1, 1, 447); (504, 20, 2, 505); (544, 1, 1, 414);
    (546, 9, 2, 547); (570, 1, 1, 11365); (571, 1, 1, 572); (573, 1, 1, 410);
    (574, 1, 1, 11366); (577, 1, 1, 578); (579, 1, 1, 384); (580, 1, 1, 649);
    (581, 1, 1, 652); (582, 5, 2, 583); (880, 2, 2, 881); (886, 1, 1, 887);
    (895, 1, 1, 1011); (902, 1, 1, 940); (904, 3, 1, 941); (908, 1, 1, 972);
    (910, 2, 1, 973); (913, 17, 1, 945); (931, 9, 1, 963); (975, 1, 1, 983);
    (984, 12, 2, 985); (1012, 1, 1, 952); (1015, 1, 1, 1016);
    (1017, 1, 1, 1010); (1018, 1, 1, 1019); (1021, 3, 1, 891);
    (1024, 16, 1, 1104); (1040, 32, 1, 1072); (1120, 17, 2, 1121);
    (1162, 27, 2, 1163); (1216, 1, 1, 1231); (1217, 7, 2, 1218);
    (1232, 48, 2, 1233); (1329, 38, 1, 1377); (4256, 38, 1, 11520);
    (4295, 1, 1, 11559); (4301, 1, 1, 11565); (5024, 80, 1, 43888);
    (5104, 6, 1, 5112); (7312, 43, 1, 4304); (7357, 3, 1, 4349);
    (7680, 75, 2, 7681); (7838, 1, 1, 223); (7840, 48, 2, 7841);
    (7944, 8, 1, 7936); (7960, 6, 1, 7952); (7976, 8, 1, 7968);
    (7992, 8, 1, 7984); (8008, 6, 1, 8000); (8025, 4, 2, 8017);
    (8040, 8, 1, 8032); (8072, 8, 1, 8064); (8088, 8, 1, 8080);
    (8104, 8, 1, 8096); (8120, 2, 1, 8112); (8122, 2, 1, 8048);
    (8124, 1, 1, 8115); (8136, 4, 1, 8050); (8140, 1, 1, 8131);
    (8152, 2, 1, 8144); (8154, 2, 1, 8054); (8168, 2, 1, 8160);
    (8170, 2, 1, 8058); (8172, 1, 1, 8165); (8184, 2, 1, 8056);
    (8186, 2, 1, 8060); (8188, 1, 1, 8179); (8486, 1, 1, 969);
    (8490, 1, 1, 107); (8491, 1, 1, 229); (8498, 1, 1, 8526);
    (8544, 16, 1, 8560); (8579, 1, 1, 8580); (9398, 26, 1, 9424);
    (11264, 48, 1, 11312); (11360, 1, 1, 11361); (11362, 1, 1, 619);
    (11363, 1, 1, 7549); (11364, 1, 1, 637); (11367, 3, 2, 11368);
    (11373, 1, 1, 593); (11374, 1, 1, 625); (11375, 1, 1, 592);
    (11376, 1, 1, 594); (11378, 1, 1, 11379); (11381, 1, 1, 11382);
    (11390, 2, 1, 575); (11392, 50, 2, 11393); (11499, 2, 2, 11500);
    (11506, 1, 1, 11507); (42560, 23, 2, 42561); (42624, 14, 2, 42625);
    (42786, 7, 2, 42787); (42802, 31, 2, 42803); (42873, 2, 2, 42874);
    (42877, 1, 1, 7545); (42878, 5, 2, 42879); (42891, 1, 1, 42892);
    (42893, 1, 1, 613); (42896, 2, 2, 42897); (42902, 10, 2, 42903);
    (42922, 1, 1, 614); (42923, 1, 1, 604); (42924, 1, 1, 609);
    (42925, 1, 1, 620); (42926, 1, 1, 618); (42928, 1, 1, 670);
    (42929, 1, 1, 647); (42930, 1, 1, 669); (42931, 1, 1, 43859);
    (42932, 8, 2, 42933); (42948, 1, 1, 42900); (42949, 1, 1, 642);
    (42950, 1, 1, 7566); (42951, 2, 2, 42952); (42960, 1, 1, 42961);
    (42966, 2, 2, 42967); (42997, 1, 1, 42998); (65313, 26, 1, 65345);
    (66560, 40, 1, 66600); (66736, 36, 1, 66776); (66928, 11, 1, 66967);
    (66940, 15, 1, 66979); (66956, 7, 1, 66995); (66964, 2, 1, 67003);
    (68736, 51, 1, 68800); (71840, 32, 1, 71872); (93760, 32, 1, 93792);
    (125184, 34, 1, 125218)
  ].

Definition cased_ranges : list (N * N) :=
  [
    (65, 90); (97, 122); (170, 170); (181, 181); (186, 186); (192, 214);
    (216, 246); (248, 442); (444, 447); (452, 659); (661, 696); (704, 705);
    (736, 740); (837, 837); (880, 883); (886, 887); (890, 893); (895, 895);
    (902, 902); (904, 906); (908, 908); (910, 929); (931, 1013);
    (1015, 1153); (1162, 1327); (1329, 1366); (1376, 1416); (4256, 4293);
    (4295, 4295); (4301, 4301); (4304, 4346); (4349, 4351); (5024, 5109);
    (5112, 5117); (7296, 7304); (7312, 7354); (7357, 7359); (7424, 7615);
    (7680, 7957); (7960, 7965); (7968, 8005); (8008, 8013); (8016, 8023);
    (8025, 8025); (8027, 8027); (8029, 8029); (8031, 8061); (8064, 8116);
    (8118, 8124); (8126, 8126); (8130, 8132); (8134, 8140); (8144, 8147);
    (8150, 8155); (8160, 8172); (8178, 8180); (8182, 8188); (8305, 8305);
    (8319, 8319); (8336, 8348); (8450, 8450); (8455, 8455); (8458, 8467);
    (8469, 8469); (8473, 8477); (8484, 8484); (8486, 8486); (8488, 8488);
    (8490, 8493); (8495, 8500); (8505, 8505); (8508, 8511); (8517, 8521);
    (8526, 8526); (8544, 8575); (8579, 8580); (9398, 9449); (11264, 11492);
    (11499, 11502); (11506, 11507); (11520, 11557); (11559, 11559);
    (11565, 11565); (42560, 42605); (42624, 42653); (42786, 42887);
    (42891, 42894); (42896, 42954); (42960, 42961); (42963, 42963);
    (42965, 42969); (42997, 42998); (43000, 43002); (43824, 43866);
    (43868, 43880); (43888, 43967); (64256, 64262); (64275, 64279);
    (65313, 65338); (65345, 65370); (66560, 66639); (66736, 66771);
    (66776, 66811); (66928, 66938); (66940, 66954); (66956, 66962);
    (66964, 66965); (66967, 66977); (66979, 66993); (66995, 67001);
    (67003, 67004); (67456, 67456); (67459, 67461); (67463, 67504);
    (67506, 67514); (68736, 68786); (68800, 68850); (71840, 71903);
    (93760, 93823); (119808, 119892); (119894, 119964); (119966, 119967);
    (119970, 119970); (119973, 119974); (119977, 119980); (119982, 119993);
    (119995, 119995); (119997, 120003); (120005, 120069); (120071, 120074);
    (120077, 120084); (120086, 120092); (120094, 120121); (120123, 120126);
    (120128, 120132); (120134, 120134); (120138, 120144); (120146, 120485);
    (120488, 120512); (120514, 120538); (120540, 120570); (120572, 120596);
    (120598, 120628); (120630, 120654); (120656, 120686); (120688, 120712);
    (120714, 120744); (120746, 120770); (120772, 120779); (122624, 122633);
    (122635, 122654); (125184, 125251); (127280, 127305); (127312, 127337);
    (127344, 127369)
  ].

Definition case_ignorable_ranges : list (N * N) :=
  [
    (39, 39); (46, 46); (58, 58); (94, 94); (96, 96); (168, 168); (173, 173);
    (175, 175); (180, 180); (183, 184); (688, 879); (884, 885); (890, 890);
    (900, 901); (903, 903); (1155, 1161); (1369, 1369); (1375, 1375);
    (1425, 1469); (1471, 1471); (1473, 1474); (1476, 1477); (1479, 1479);
    (1524, 1524); (1536, 1541); (1552, 1562); (1564, 1564); (1600, 1600);
    (1611, 1631); (1648, 1648); (1750, 1757); (1759, 1768); (1770, 1773);
    (1807, 1807); (1809, 1809); (1840, 1866); (1958, 1968); (2027, 2037);
    (2042, 2042); (2045, 2045); (2070, 2093); (2137, 2139); (2184, 2184);
    (2192, 2193); (2200, 2207); (2249, 2306); (2362, 2362); (2364, 2364);
    (2369, 2376); (2381, 2381); (2385, 2391); (2402, 2403); (2417, 2417);
    (2433, 2433); (2492, 2492); (2497, 2500); (2509, 2509); (2530, 2531);
    (2558, 2558); (2561, 2562); (2620, 2620); (2625, 2626); (2631, 2632);
    (2635, 2637); (2641, 2641); (2672, 2673); (2677, 2677); (2689, 2690);
    (2748, 2748); (2753, 2757); (2759, 2760); (2765, 2765); (2786, 2787);
    (2810, 2815); (2817, 2817); (2876, 2876); (2879, 2879); (2881, 2884);
    (2893, 2893); (2901, 2902); (2914, 2915); (2946, 2946); (3008, 3008);
    (3021, 3021); (3072, 3072); (3076, 3076); (3132, 3132); (3134, 3136);
    (3142, 3144); (3146, 3149); (3157, 3158); (3170, 3171); (3201, 3201);
    (3260, 3260); (3263, 3263); (3270, 3270); (3276, 3277); (3298, 3299);
    (3328, 3329); (3387, 3388); (3393, 3396); (3405, 3405); (3426, 3427);
    (3457, 3457); (3530, 3530); (3538, 3540); (3542, 3542); (3633, 3633);
    (3636, 3642); (3654, 3662); (3761, 3761); (3764, 3772); (3782, 3782);
    (3784, 3789); (3864, 3865); (3893, 3893); (3895, 3895); (3897, 3897);
    (3953, 3966); (3968, 3972); (3974, 3975); (3981, 3991); (3993, 4028);
    (4038, 4038); (4141, 4144); (4146, 4151); (4153, 4154); (4157, 4158);
    (4184, 4185); (4190, 4192); (4209, 4212); (4226, 4226); (4229, 4230);
    (4237, 4237); (4253, 4253); (4348, 4348); (4957, 4959); (5906, 5908);
    (5938, 5939); (5970, 5971); (6002, 6003); (6068, 6069); (6071, 6077);
    (6086, 6086); (6089, 6099); (6103, 6103); (6109, 6109); (6155, 6159);
    (6211, 6211); (6277, 6278); (6313, 6313); (6432, 6434); (6439, 6440);
    (6450, 6450); (6457, 6459); (6679, 6680); (6683, 6683); (6742, 6742);
    (6744, 6750); (6752, 6752); (6754, 6754); (6757, 6764); (6771, 6780);
    (6783, 6783); (6823, 6823); (6832, 6862); (6912, 6915); (6964, 6964);
    (6966, 6970); (6972, 6972); (6978, 6978); (7019, 7027); (7040, 7041);
    (7074, 7077); (7080, 7081); (7083, 7085); (7142, 7142); (7144, 7145);
    (7149, 7149); (7151, 7153); (7212, 7219); (7222, 7223); (7288, 7293);
    (7376, 7378); (7380, 7392); (7394, 7400); (7405, 7405); (7412, 7412);
    (7416, 7417); (7468, 7530); (7544, 7544); (7579, 7679); (8125, 8125);
    (8127, 8129); (8141, 8143); (8157, 8159); (8173, 8175); (8189, 8190);
    (8203, 8207); (8216, 8217); (8228, 8228); (8231, 8231); (8234, 8238);
    (8288, 8292); (8294, 8303); (8305, 8305); (8319, 8319); (8336, 8348);
    (8400, 8432); (11388, 11389); (11503, 11505); (11631, 11631);
    (11647, 11647); (11744, 11775); (11823, 11823); (12293, 12293);
    (12330, 12333); (12337, 12341); (12347, 12347); (12441, 12446);
    (12540, 12542); (40981, 40981); (42232, 42237); (42508, 42508);
    (42607, 42610); (42612, 42621); (42623, 42623); (42652, 42655);
    (42736, 42737); (42752, 42785); (42864, 42864); (42888, 42890);
    (42994, 42996); (43000, 43001); (43010, 43010); (43014, 43014);
    (43019, 43019); (43045, 43046); (43052, 43052); (43204, 43205);
    (43232, 43249); (43263, 43263); (43302, 43309); (43335, 43345);
    (43392, 43394); (43443, 43443); (43446, 43449); (43452, 43453);
    (43471, 43471); (43493, 43494); (43561, 43566); (43569, 43570);
    (43573, 43574); (43587, 43587); (43596, 43596); (43632, 43632);
    (43644, 43644); (43696, 43696); (43698, 43700); (43703, 43704);
    (43710, 43711); (43713, 43713); (43741, 43741); (43756, 43757);
    (43763, 43764); (43766, 43766); (43867, 43871); (43881, 43883);
    (44005, 44005); (44008, 44008); (44013, 44013); (64286, 64286);
    (64434, 64450); (65024, 65039); (65043, 65043); (65056, 65071);
    (65106, 65106); (65109, 65109); (65279, 65279); (65287, 65287);
    (65294, 65294); (65306, 65306); (65342, 65342); (65344, 65344);
    (65392, 65392); (65438, 65439); (65507, 65507); (65529, 65531);
    (66045, 66045); (66272, 66272); (66422, 66426); (67456, 67461);
    (67463, 67504); (67506, 67514); (68097, 68099); (68101, 68102);
    (68108, 68111); (68152, 68154); (68159, 68159); (68325, 68326);
    (68900, 68903); (69291, 69292); (69446, 69456); (69506, 69509);
    (69633, 69633); (69688, 69702); (69744, 69744); (69747, 69748);
    (69759, 69761); (69811, 69814); (69817, 69818); (69821, 69821);
    (69826, 69826); (69837, 69837); (69888, 69890); (69927, 69931);
    (69933, 69940); (70003, 70003); (70016, 70017); (70070, 70078);
    (70089, 70092); (70095, 70095); (70191, 70193); (70196, 70196);
    (70198, 70199); (70206, 70206); (70367, 70367); (70371, 70378);
    (70400, 70401); (70459, 70460); (70464, 70464); (70502, 70508);
    (70512, 70516); (70712, 70719); (70722, 70724); (70726, 70726);
    (70750, 70750); (70835, 70840); (70842, 70842); (70847, 70848);
    (70850, 70851); (71090, 71093); (71100, 71101); (71103, 71104);
    (71132, 71133); (71219, 71226); (71229, 71229); (71231, 71232);
    (71339, 71339); (71341, 71341); (71344, 71349); (71351, 71351);
    (71453, 71455); (71458, 71461); (71463, 71467); (71727, 71735);
    (71737, 71738); (71995, 71996); (71998, 71998); (72003, 72003);
    (72148, 72151); (72154, 72155); (72160, 72160); (72193, 72202);
    (72243, 72248); (72251, 72254); (72263, 72263); (72273, 72278);
    (72281, 72283); (72330, 72342); (72344, 72345); (72752, 72758);
    (72760, 72765); (72767, 72767); (72850, 72871); (72874, 72880);
    (72882, 72883); (72885, 72886); (73009, 73014); (73018, 73018);
    (73020, 73021); (73023, 73029); (73031, 73031); (73104, 73105);
    (73109, 73109); (73111, 73111); (73459, 73460); (78896, 78904);
    (92912, 92916); (92976, 92982); (92992, 92995); (94031, 94031);
    (94095, 94111); (94176, 94177); (94179, 94180); (110576, 110579);
    (110581, 110587); (110589, 110590); (113821, 113822); (113824, 113827);
    (118528, 118573); (118576, 118598); (119143, 119145); (119155, 119170);
    (119173, 119179); (119210, 119213); (119362, 119364); (121344, 121398);
    (121403, 121452); (121461, 121461); (121476, 121476); (121499, 121503);
    (121505, 121519); (122880, 122886); (122888, 122904); (122907, 122913);
    (122915, 122916); (122918, 122922); (123184, 123197); (123566, 123566);
    (123628, 123631); (125136, 125142); (125252, 125259); (127995, 127999);
    (917505, 917505); (917536, 917631); (917760, 917999)
  ].

Definition expand_run (r : N * N * N * N) : list (N * N) :=
  let '(first, count, step, target) := r in
  (fun k : nat => (first + N.of_nat k * step, target + N.of_nat k * step))
    <$> seq 0%nat (N.to_nat count).

Definition lower_pairs : list (N * N) := concat (expand_run <$> lower_runs).

Fixpoint assoc (c : N) (l : list (N * N)) : option N :=
  match l with
  | [] => None
  | (k, v) :: l' => if k =? c then Some v else assoc c l'
  end.

Definition in_ranges (ranges : list (N * N)) (c : N) : bool :=
  existsb (fun r => (r.1 <=? c) && (c <=? r.2)) ranges.

Definition is_cased (c : char) : bool := in_ranges cased_ranges c.

Definition is_case_ignorable (c : char) : bool :=
  in_ranges case_ignorable_ranges c.

(** [_PyUnicode_ToLowerFull]: U+0130 is the one character whose lower case
    has two code points. *)
Definition to_lower_full (c : char) : str :=
  if c =? 304 then [105; 775]
  else match assoc c lower_pairs with
       | Some l => [l]
       | None => [c]
       end.

Fixpoint skip_case_ignorable (s : str) : str :=
  match s with
  | c :: s' => if is_case_ignorable c then skip_case_ignorable s' else s
  | [] => []
  end.

(** [handle_capital_sigma]: [before] holds the characters before the sigma,
    the nearest first, [after] those that follow it.  The sigma is final
    when a cased character precedes it and none follows it, case-ignorable
    characters skipped on both sides. *)
Definition handle_capital_sigma (before after : str) : char :=
  let final_sigma :=
    match skip_case_ignorable before with
    | c :: _ => is_cased c
    | [] => false
    end in
  let final_sigma :=
    if final_sigma then
      match skip_case_ignorable after with
      | c :: _ => negb (is_cased c)
      | [] => true
      end
    else false in
  if final_sigma then 962 else 963.

(** [lower_ucs4]: what the character [c] found between [before] and
    [after] becomes. *)
Definition lower_ucs4 (before : str) (c : char) (after : str) : str :=
  if c =? 931 then [handle_capital_sigma before after] else to_lower_full c.

Fixpoint do_lower (before s : str) : str :=
  match s with
  | [] => []
  | c :: rest => lower_ucs4 before c rest ++ do_lower (c :: before) rest
  end.

Definition lower (s : str) : str := do_lower [] s.

(** *** Notions for reasoning about [lower] *)

(** The two tests of [handle_capital_sigma] on the neighbours of a sigma,
    as functions of the neighbours alone. *)
Definition prev_cased (before : str) : bool :=
  match skip_case_ignorable before with
  | c :: _ => is_cased c
  | [] => false
  end.

Definition next_uncased (after : str) : bool :=
  match skip_case_ignorable after with
  | c :: _ => negb (is_cased c)
  | [] => true
  end.

(** A code point that [str.lower] leaves alone wherever it stands. *)
Definition lower_fixed (c : char) : bool :=
  negb (c =? 931) && negb (c =? 304)
  && match assoc c lower_pairs with None => true | Some _ => false end.

(** What a character other than a blank becomes: never the empty string,
    no blank in it, and only code points that are left alone. *)
Definition lowered_ok (l : str) : bool :=
  match l with [] => false | _ => true end
  && forallb (fun d => lower_fixed d && negb (isspace d)) l.

(** The code points for which [isspace] holds. *)
Definition spaces : list char :=
  [9; 10; 11; 12; 13; 28; 29; 30; 31; 32; 133; 160; 5760; 8192; 8193; 8194;
   8195; 8196; 8197; 8198; 8199; 8200; 8201; 8202; 8232; 8233; 8239; 8287;
   12288].

Definition str_eqb (a b : str) : bool := bool_decide (a = b).

Fixpoint startswith (s prefix : str) : bool :=
  match prefix, s with
  | [], _ => true
  | p :: prefix', c :: s' => (p =? c) && startswith s' prefix'
  | _ :: _, [] => false
  end.

(** [needle in s] *)
Fixpoint contains (needle s : str) : bool :=
  startswith s needle
  || match s with
     | [] => false
     | _ :: s' => contains needle s'
     end.

(** [sep.join(parts)] *)
Fixpoint join (sep : str) (parts : list str) : str :=
  match parts with
  | [] => []
  | [p] => p
  | p :: ps => p ++ sep ++ join sep ps
  end.

(** Truth value of a string: non-empty. *)
Definition truthy (s : str) : bool :=
  match s with [] => false | _ => true end.

(** [not s.strip()] *)
Definition is_blank (s : str) : bool := negb (truthy (strip s)).

Definition nl : str := [10].

(** ** Python numbers *)

(** [int(x)] for a float: truncation toward zero; raises on nan and inf. *)
Definition int_of_float (x : float) : option Z :=
  match Prim2SF x with
  | S754_zero _ => Some 0%Z
  | S754_finite s m e =>
      let a := if (0 <=? e)%Z then Z.shiftl (Z.pos m) e
               else Z.shiftr (Z.pos m) (- e) in
      Some (if s then (- a)%Z else a)
  | S754_infinity _ | S754_nan => None
  end.

(** [round(x)] for a float: the nearest integer, ties to the even one;
    raises on nan and inf. *)
Definition round_float (x : float) : option Z :=
  match Prim2SF x with
  | S754_zero _ => Some 0%Z
  | S754_finite s m e =>
      let a :=
        if (0 <=? e)%Z then Z.shiftl (Z.pos m) e
        else
          let q := Z.shiftr (Z.pos m) (- e) in
          let r := (Z.pos m - Z.shiftl q (- e))%Z in
          let half := Z.shiftl 1 (- e - 1) in
          if (half <? r)%Z then (q + 1)%Z
          else if (r =? half)%Z && Z.odd q then (q + 1)%Z
          else q in
      Some (if s then (- a)%Z else a)
  | S754_infinity _ | S754_nan => None
  end.

(** [float(z)], the conversion of an int operand in mixed arithmetic. *)
Definition float_of_int (z : Z) : float :=
  SF2Prim (binary_normalize prec emax z 0 false).

Fixpoint uint_digits (u : Decimal.uint) : str :=
  match u with
  | Decimal.Nil => []
  | Decimal.D0 u => 48 :: uint_digits u
  | Decimal.D1 u => 49 :: uint_digits u
  | Decimal.D2 u => 50 :: uint_digits u
  | Decimal.D3 u => 51 :: uint_digits u
  | Decimal.D4 u => 52 :: uint_digits u
  | Decimal.D5 u => 53 :: uint_digits u
  | Decimal.D6 u => 54 :: uint_digits u
  | Decimal.D7 u => 55 :: uint_digits u
  | Decimal.D8 u => 56 :: uint_digits u
  | Decimal.D9 u => 57 :: uint_digits u
  end.

(** [f"{z:0{width}d}"]: decimal, zero-padded after the sign to [width]
    characters; [width = 0] is plain [str(z)]. *)
Definition format_d (width : nat) (z : Z) : str :=
  let digits := uint_digits (N.to_uint (Z.abs_N z)) in
  let sign := if (z <? 0)%Z then lit "-" else [] in
  sign ++ replicate (width - length sign - length digits)%nat 48 ++ digits.

Close Scope N_scope.

(** ** utils.py *)

Record Segment := mkSegment {
  start : float;
  end_ : float;
  text : str;
  speaker : str
}.

Definition google_mapping : gmap str str :=
  list_to_map
    [ (lit "arabic", lit "ar"); (lit "ar", lit "ar");
      (lit "czech", lit "cs"); (lit "cs", lit "cs");
      (lit "danish", lit "da"); (lit "da", lit "da");
      (lit "dutch", lit "nl"); (lit "nl", lit "nl");
      (lit "english", lit "en"); (lit "en", lit "en");
      (lit "finnish", lit "fi"); (lit "fi", lit "fi");
      (lit "french", lit "fr"); (lit "fr", lit "fr");
      (lit "german", lit "de"); (lit "de", lit "de");
      (lit "greek", lit "el"); (lit "el", lit "el");
      (lit "hebrew", lit "iw"); (lit "iw", lit "iw");
      (lit "hindi", lit "hi"); (lit "hi", lit "hi");
      (lit "hungarian", lit "hu"); (lit "hu", lit "hu");
      (lit "indonesian", lit "id"); (lit "id", lit "id");
      (lit "italian", lit "it"); (lit "it", lit "it");
      (lit "japanese", lit "ja"); (lit "ja", lit "ja");
      (lit "korean", lit "ko"); (lit "ko", lit "ko");
      (lit "norwegian", lit "no"); (lit "no", lit "no");
      (lit "polish", lit "pl"); (lit "pl", lit "pl");
      (lit "portuguese", lit "pt"); (lit "pt", lit "pt");
      (lit "romanian", lit "ro"); (lit "ro", lit "ro");
      (lit "russian", lit "ru"); (lit "ru", lit "ru");
      (lit "slovak", lit "sk"); (lit "sk", lit "sk");
      (lit "spanish", lit "es"); (lit "es", lit "es");
      (lit "swedish", lit "sv"); (lit "sv", lit "sv");
      (lit "thai", lit "th"); (lit "th", lit "th");
      (lit "turkish", lit "tr"); (lit "tr", lit "tr");
      (lit "ukrainian", lit "uk"); (lit "uk", lit "uk");
      (lit "vietnamese", lit "vi"); (lit "vi", lit "vi");
      (lit "chinese", lit "zh-cn"); (lit "zh", lit "zh-cn");
      (lit "zh-cn", lit "zh-cn"); (lit "zh_tw", lit "zh-tw");
      (lit "taiwanese", lit "zh-tw") ].

Definition normalize_language_code_for_google (lang : str) : str :=
  let lang := strip (lower lang) in
  default lang (google_mapping !! lang).

Definition api_mapping : gmap str str :=
  list_to_map
    [ (lit "arabic", lit "ar"); (lit "ar", lit "ar");
      (lit "czech", lit "cs"); (lit "cs", lit "cs");
      (lit "danish", lit "da"); (lit "da", lit "da");
      (lit "dutch", lit "nl"); (lit "nl", lit "nl");
      (lit "english", lit "en"); (lit "en", lit "en");
      (lit "finnish", lit "fi"); (lit "fi", lit "fi");
      (lit "french", lit "fr"); (lit "fr", lit "fr");
      (lit "german", lit "de"); (lit "de", lit "de");
      (lit "greek", lit "el"); (lit "el", lit "el");
      (lit "hebrew", lit "he"); (lit "he", lit "he");
      (lit "hindi", lit "hi"); (lit "hi", lit "hi");
      (lit "hungarian", lit "hu"); (lit "hu", lit "hu");
      (lit "indonesian", lit "id"); (lit "id", lit "id");
      (lit "italian", lit "it"); (lit "it", lit "it");
      (lit "japanese", lit "ja"); (lit "ja", lit "ja");
      (lit "korean", lit "ko"); (lit "ko", lit "ko");
      (lit "norwegian", lit "no"); (lit "no", lit "no");
      (lit "polish", lit "pl"); (lit "pl", lit "pl");
      (lit "portuguese", lit "pt"); (lit "pt", lit "pt");
      (lit "romanian", lit "ro"); (lit "ro", lit "ro");
      (lit "russian", lit "ru"); (lit "ru", lit "ru");
      (lit "slovak", lit "sk"); (lit "sk", lit "sk");
      (lit "spanish", lit "es"); (lit "es", lit "es");
      (lit "swedish", lit "sv"); (lit "sv", lit "sv");
      (lit "thai", lit "th"); (lit "th", lit "th");
      (lit "turkish", lit "tr"); (lit "tr", lit "tr");
      (lit "ukrainian", lit "uk"); (lit "uk", lit "uk");
      (lit "vietnamese", lit "vi"); (lit "vi", lit "vi");
      (lit "chinese", lit "zh"); (lit "zh", lit "zh");
      (lit "zh-cn", lit "zh"); (lit "zh_tw", lit "zh-tw");
      (lit "taiwanese", lit "zh-tw") ].

Definition normalize_language_code_for_api (lang : str) : str :=
  let lang := strip (lower lang) in
  default lang (api_mapping !! lang).

(** ** subtitles.py *)

Definition format_timestamp (seconds : float) : option str :=
  total_seconds ← int_of_float seconds;
  millis ← round_float
             (PrimFloat.mul
                (PrimFloat.sub seconds (float_of_int total_seconds))
                (float_of_int 1000));
  let hours := (total_seconds / 3600)%Z in
  let minutes := ((total_seconds mod 3600) / 60)%Z in
  let secs := (total_seconds mod 60)%Z in
  Some (format_d 2 hours ++ lit ":" ++ format_d 2 minutes ++ lit ":"
        ++ format_d 2 secs ++ lit "," ++ format_d 3 millis).

Definition format_ass_timestamp (seconds : float) : option str :=
  total_seconds ← int_of_float seconds;
  let hours := (total_seconds / 3600)%Z in
  let minutes := ((total_seconds mod 3600) / 60)%Z in
  let secs := (total_seconds mod 60)%Z in
  centiseconds ← int_of_float
                   (PrimFloat.mul
                      (PrimFloat.sub seconds (float_of_int total_seconds))
                      (float_of_int 100));
  Some (format_d 0 hours ++ lit ":" ++ format_d 2 minutes ++ lit ":"
        ++ format_d 2 secs ++ lit "." ++ format_d 2 centiseconds).

(** [max(a, b)] on floats: the first argument unless the second is greater. *)
Definition float_max (a b : float) : float :=
  if PrimFloat.ltb a b then b else a.

(** The [for] loop of [group_overlapping_segments], with its three
    variables, followed by the final flush of [current_group]. *)
Fixpoint group_loop (segments : list Segment) (groups : list (list Segment))
    (current_group : list Segment) (current_end : float)
  : list (list Segment) :=
  match segments with
  | [] =>
      match current_group with
      | [] => groups
      | _ => groups ++ [current_group]
      end
  | seg :: rest =>
      match current_group with
      | [] => group_loop rest groups [seg] (end_ seg)
      | _ =>
          if PrimFloat.ltb (start seg) current_end then
            group_loop rest groups (current_group ++ [seg])
              (float_max current_end (end_ seg))
          else
            group_loop rest (groups ++ [current_group]) [seg] (end_ seg)
      end
  end.

Definition group_overlapping_segments (segments : list Segment)
  : list (list Segment) :=
  group_loop segments [] [] (float_of_int 0).

(** ** The outside world

    The pipeline talks to two capabilities: the model backend behind
    [chat_llm] ([ollama.chat] or [client.chat.completions.create]) and the
    translation function handed to [basic_translate_segments].  Each call
    may change the world and may raise; a raised exception is [None].  The
    model name, API key, backend name and logger only select and configure
    the backend and are not represented; what they decide is whether the
    backend can be set up at all ([backend_open]).

    A prompt is represented by the values that the code puts into its
    template.  For the correction prompt these are the texts of the
    context, [previous_context] and [next_context], which the template
    shows as the string [correction_context] builds from them, and the text
    of the segment. *)

Inductive Prompt :=
  | CorrectionPrompt (previous_context next_context : list str) (current : str)
  | MergePrompt (start1 end1 : float) (text1 : str)
                (start2 end2 : float) (text2 : str)
  | OptimizePrompt (dest_language original context_text basic_translation : str)
  | SelectPrompt (dest_language context_text original basic_translation
                  optimized_translation : str).

(** What a translation function returns: text, or bytes. *)
Inductive tvalue :=
  | VStr (s : str)
  | VBytes (b : list N).

Inductive Event :=
  | Chat (p : Prompt)
  | Translate (text src dest : str)
  | Sleep (seconds : N).

Class Capabilities := {
  World : Type;
  (** what [chat_with_ollama] and [chatwith_gpt] do before their retry
      loop, outside any [try]: [import ollama], or [OpenAI(api_key=...)]
      with the key of the caller or of the environment; [false] is an
      exception (no such module, no key) *)
  backend_open : World -> bool * World;
  (** one request to the model backend; the content of the reply *)
  backend_chat : Prompt -> World -> option str * World;
  (** one call [translate_func(text, src=..., dest=...)] *)
  translate_func : str -> str -> str -> World -> option tvalue * World;
  (** [b.decode('utf-8')]; [None] is UnicodeDecodeError *)
  bytes_decode : list N -> option str;
  (** [int(s)] on a string; [None] is ValueError *)
  parse_int : str -> option Z
}.

Section Pipeline.
Context `{Capabilities}.

(** A computation returns its value, the new world and the events it
    produced, oldest first. *)
Definition M (A : Type) : Type := World -> A * World * list Event.

Definition ret {A} (a : A) : M A := fun w => (a, w, []).

Definition bind {A B} (m : M A) (f : A -> M B) : M B :=
  fun w =>
    let '(a, w1, t1) := m w in
    let '(b, w2, t2) := f a w1 in
    (b, w2, t1 ++ t2).

Notation "'let*' x ':=' m 'in' k" := (bind m (fun x => k))
  (at level 10, x pattern, m at level 100, k at level 200).

Definition call_backend (p : Prompt) : M (option str) :=
  fun w => let '(r, w') := backend_chat p w in (r, w', [Chat p]).

Definition call_translate (text src dest : str) : M (option tvalue) :=
  fun w =>
    let '(r, w') := translate_func text src dest w in
    (r, w', [Translate text src dest]).

Definition sleep (seconds : N) : M unit := fun w => (tt, w, [Sleep seconds]).

Fixpoint mapM {A B} (f : A -> M B) (l : list A) : M (list B) :=
  match l with
  | [] => ret []
  | a :: l' => let* b := f a in let* bs := mapM f l' in ret (b :: bs)
  end.

(** ** llm.py *)

(** What a call that may raise ends with: the value it returns, or an
    exception. *)
Inductive outcome :=
  | Returned (answer : str)
  | Raised.

Definition open_backend : M bool :=
  fun w => let '(ok, w') := backend_open w in (ok, w', []).

(** The retry loop of [chat_with_ollama] and [chatwith_gpt]:
    [remaining = max_attempts - attempts].  Its [try] catches whatever a
    request raises. *)
Fixpoint chat_retry (remaining : nat) (sleep_time : N) (p : Prompt) : M str :=
  match remaining with
  | O => ret []
  | S k =>
      let* r := call_backend p in
      match r with
      | Some content => ret (strip content)
      | None => let* _ := sleep sleep_time in chat_retry k (sleep_time * 2)%N p
      end
  end.

(** [chat_with_ollama] and [chatwith_gpt], which differ in the backend
    they talk to: the set-up, whose exception escapes, then the retry
    loop. *)
Definition chat_with_backend (max_attempts : nat) (p : Prompt) : M outcome :=
  let* ok := open_backend in
  if ok then
    let* response_text := chat_retry max_attempts 1%N p in
    ret (Returned response_text)
  else ret Raised.

Definition chat_llm (p : Prompt) : M outcome := chat_with_backend 5 p.

(** ** segmentation.py *)

(** [l[a:b]] for non-negative [a] and [b]. *)
Definition slice {A} (l : list A) (a b : nat) : list A := take (b - a) (drop a l).

Definition nonblank_texts (segments : list Segment) : list str :=
  text <$> List.filter (fun s => negb (is_blank (text s))) segments.

(** [previous_context] and [next_context] of iteration [i]. *)
Definition previous_context (segments : list Segment) (context_range i : nat)
  : list str :=
  let start_idx := i - context_range in
  nonblank_texts (slice segments start_idx i).

Definition next_context (segments : list Segment) (context_range i : nat)
  : list str :=
  let total := length segments in
  let end_idx := total `min` (i + context_range + 1) in
  nonblank_texts (slice segments (i + 1) end_idx).

(** The string [context] that the correction prompt shows. *)
Definition correction_context (previous_context next_context : list str) : str :=
  let context :=
    match previous_context with
    | [] => []
    | _ => lit "Previous context: " ++ join (lit " ") previous_context ++ nl
    end in
  match next_context with
  | [] => context
  | _ => context ++ lit "Next context: " ++ join (lit " ") next_context ++ nl
  end.

Definition set_text (seg : Segment) (t : str) : Segment :=
  mkSegment (start seg) (end_ seg) t (speaker seg).

(** The body of the loop of [llm_correct_segments].  The handler of the
    [try] keeps the original text, as does an empty reply. *)
Definition correct_segment (segments : list Segment) (context_range i : nat)
    (seg : Segment) : M Segment :=
  if is_blank (text seg) then ret seg
  else
    let* o := chat_llm
      (CorrectionPrompt (previous_context segments context_range i)
         (next_context segments context_range i) (text seg)) in
    let corrected_text :=
      match o with
      | Returned corrected_text => corrected_text
      | Raised => text seg
      end in
    ret (set_text seg (if truthy corrected_text then corrected_text else text seg)).

Fixpoint correct_loop (segments : list Segment) (context_range i : nat)
    (rest : list Segment) : M (list Segment) :=
  match rest with
  | [] => ret []
  | seg :: rest' =>
      let* corrected_seg := correct_segment segments context_range i seg in
      let* corrected_segments := correct_loop segments context_range (S i) rest' in
      ret (corrected_seg :: corrected_segments)
  end.

Definition llm_correct_segments (segments : list Segment) (context_range : nat)
  : M (list Segment) :=
  match segments with
  | [] => ret segments
  | _ => correct_loop segments context_range 0 segments
  end.

(** What [should_merge] makes of the outcome of its [try] block: the
    answer of [chat_llm], or an exception, which its handler turns into
    [False]. *)
Definition merge_verdict (o : outcome) : bool :=
  match o with
  | Returned answer =>
      if truthy answer
         && (contains (lit "not") (lower answer) || contains (lit "不") answer)
      then false
      else true
  | Raised => false
  end.

Definition should_merge (seg1 seg2 : Segment) : M bool :=
  let* o := chat_llm
    (MergePrompt (start seg1) (end_ seg1) (text seg1)
                 (start seg2) (end_ seg2) (text seg2)) in
  ret (merge_verdict o).

Definition merged_segment (seg1 seg2 : Segment) : Segment :=
  mkSegment (start seg1) (end_ seg2)
    (strip (text seg1) ++ lit " " ++ strip (text seg2)) (speaker seg1).

(** One iteration of the [while] loop of [llm_merge_segments], entered with
    [i < len(segments) - 1]: the new cursor and the new list. *)
Definition merge_step (i : nat) (segments : list Segment)
  : M (nat * list Segment) :=
  match segments !! i, segments !! (i + 1) with
  | Some seg1, Some seg2 =>
      if is_blank (text seg1) || is_blank (text seg2) then ret (i + 1, segments)
      else if PrimFloat.ltb (float_of_int 4) (PrimFloat.sub (end_ seg2) (start seg1))
      then ret (i + 1, segments)
      else
        let* verdict := should_merge seg1 seg2 in
        if verdict
        then ret (i, delete (i + 1) (<[i := merged_segment seg1 seg2]> segments))
        else ret (i + 1, segments)
  | _, _ => ret (i, segments)
  end.

(** The [while] loop; [None] when [fuel] iterations were not enough. *)
Fixpoint merge_loop (fuel i : nat) (segments : list Segment)
  : M (option (list Segment)) :=
  if S i <? length segments then
    match fuel with
    | O => ret None
    | S fuel' =>
        let* (i', segments') := merge_step i segments in
        merge_loop fuel' i' segments'
    end
  else ret (Some segments).

Definition llm_merge_segments (segments : list Segment)
  : M (option (list Segment)) :=
  match segments with
  | [] => ret (Some segments)
  | _ => merge_loop (length segments) 0 segments
  end.

(** ** translation.py *)

(** The task of one segment in the asynchronous branch of
    [basic_translate_segments] ([sem_translate]):
    [remaining = max_attempts - attempt], [delay = 1]. *)
Fixpoint sem_translate_loop (remaining attempt : nat) (text src dest : str)
  : M tvalue :=
  match remaining with
  | O => ret (VStr text)
  | S k =>
      let* r := call_translate text src dest in
      match r with
      | Some v => ret v
      | None =>
          let attempt := S attempt in
          let* _ := sleep (1 * 2 ^ N.of_nat (attempt - 1))%N in
          sem_translate_loop k attempt text src dest
      end
  end.

Definition sem_translate (text src dest : str) : M tvalue :=
  sem_translate_loop 5 0 text src dest.

(** The [while] loop of the synchronous branch for one segment:
    [remaining = max_attempts - attempts]; when it is left with
    [attempts = max_attempts] the last handler has set
    [basic_trans = original]. *)
Fixpoint sync_translate_loop (max_attempts remaining attempts : nat)
    (original src dest : str) : M str :=
  match remaining with
  | O => ret original
  | S k =>
      let* r := call_translate original src dest in
      let failed :=
        let attempts := S attempts in
        let* _ := (if attempts <? max_attempts then sleep 1%N else ret tt) in
        sync_translate_loop max_attempts k attempts original src dest in
      match r with
      | Some (VStr basic_trans) => ret basic_trans
      | Some (VBytes b) =>
          match bytes_decode b with
          | Some basic_trans => ret basic_trans
          | None => failed
          end
      | None => failed
      end
  end.

Definition sync_translate (original src dest : str) : M str :=
  sync_translate_loop 5 5 0 original src dest.

(** [basic_translate_segments]; [is_async] is
    [asyncio.iscoroutinefunction(translate_func)].  The tasks of the
    asynchronous branch are run one after the other, in the order in which
    [gather] returns their results; the calls of one task see an arbitrary
    world, as they do under any interleaving. *)
Definition basic_translate_segments (segments : list Segment)
    (detected_language dest_language : str) (is_async : bool)
  : M (list tvalue) :=
  if is_async then
    mapM (fun seg => sem_translate (text seg) detected_language dest_language)
      segments
  else
    mapM (fun seg =>
            let* basic_trans := sync_translate (text seg) detected_language
                             dest_language in
            ret (VStr basic_trans))
      segments.

(** [select_best_translation] and [optimize_translation] call [chat_llm]
    outside any [try]: an exception of [chat_llm] is their exception,
    [None]. *)
Definition select_best_translation
    (context_text original basic_translation optimized_translation
     dest_language : str) : M (option str) :=
  let* o := chat_llm
    (SelectPrompt dest_language context_text original basic_translation
       optimized_translation) in
  ret match o with
      | Returned response =>
          Some match parse_int (strip response) with
               | Some choice =>
                   if (choice =? 0)%Z then basic_translation
                   else optimized_translation
               | None => basic_translation
               end
      | Raised => None
      end.

Definition optimize_translation
    (original basic_translation context_text dest_language : str)
  : M (option str) :=
  let* o := chat_llm
    (OptimizePrompt dest_language original context_text basic_translation) in
  ret match o with
      | Returned optimized_translation =>
          Some (if truthy optimized_translation then optimized_translation
                else basic_translation)
      | Raised => None
      end.

(** [context_text] of iteration [i], read from the current content of
    [basic_translations]; [n] is [len(segments)]. *)
Definition context_text_at (n : nat) (basic_translations : list str)
    (context_range i : nat) : str :=
  let before :=
    if 0 <? i then
      let start_idx := i - context_range in
      [lit "前文: " ++ join nl (slice basic_translations start_idx i)]
    else [] in
  let after :=
    if S i <? n then
      let end_idx := n `min` (i + context_range + 1) in
      [lit "后文: " ++ join nl (slice basic_translations (i + 1) end_idx)]
    else [] in
  join nl (before ++ after).

(** One iteration of the loop of [optimize_translations_with_context]: the
    final segment and the updated [basic_translations]; [None] is an
    exception, the IndexError of [basic_translations[i]] or what
    [optimize_translation] or [select_best_translation] raises. *)
Definition optimize_step (segments : list Segment) (use_llm : bool)
    (context_range : nat) (dest_language : str) (i : nat)
    (basic_translations : list str) : M (option (Segment * list str)) :=
  match segments !! i, basic_translations !! i with
  | Some seg, Some basic_trans =>
      let original := text seg in
      let context_text :=
        context_text_at (length segments) basic_translations context_range i in
      if use_llm then
        let* r := optimize_translation original basic_trans context_text
               dest_language in
        match r with
        | None => ret None
        | Some optimized_trans =>
            let* r :=
              (if str_eqb basic_trans optimized_trans
               then ret (Some optimized_trans)
               else select_best_translation context_text original basic_trans
                      optimized_trans dest_language) in
            match r with
            | None => ret None
            | Some optimized_trans =>
                ret (Some (set_text seg optimized_trans,
                           <[i := optimized_trans]> basic_translations))
            end
        end
      else ret (Some (set_text seg basic_trans, basic_translations))
  | _, _ => ret None
  end.

Fixpoint optimize_loop (segments : list Segment) (use_llm : bool)
    (context_range : nat) (dest_language : str) (indices : list nat)
    (basic_translations : list str) : M (option (list Segment * list str)) :=
  match indices with
  | [] => ret (Some ([], basic_translations))
  | i :: indices' =>
      let* r := optimize_step segments use_llm context_range dest_language i
             basic_translations in
      match r with
      | None => ret None
      | Some (final_seg, basic_translations') =>
          let* r' := optimize_loop segments use_llm context_range dest_language
                  indices' basic_translations' in
          ret match r' with
              | None => None
              | Some (final_segments, bt) => Some (final_seg :: final_segments, bt)
              end
      end
  end.

(** [optimize_translations_with_context]: the returned [final_segments]
    together with the content of the caller's [basic_translations] list
    after the call. *)
Definition optimize_translations_with_context (segments : list Segment)
    (basic_translations : list str) (use_llm : bool) (context_range : nat)
    (dest_language : str) : M (option (list Segment * list str)) :=
  optimize_loop segments use_llm context_range dest_language
    (seq 0 (length segments)) basic_translations.

End Pipeline.

Notation "'let*' x ':=' m 'in' k" := (bind m (fun x => k))
  (at level 10, x pattern, m at level 100, k at level 200).

(** ** Observations on a run *)

Definition result {A W} (r : A * W * list Event) : A := r.1.1.
Definition events {A W} (r : A * W * list Event) : list Event := r.2.




(** An event of the correction or merge stage that hands no blank text to
    the model: a sleep, or a request in which every segment text, that of
    the segment in question and those of the context, is non-blank. *)
Definition llm_text_nonblank (e : Event) : Prop :=
  match e with
  | Chat (CorrectionPrompt previous_context next_context current) =>
      Forall (fun t => is_blank t = false) previous_context
      /\ Forall (fun t => is_blank t = false) next_context
      /\ is_blank current = false
  | Chat (MergePrompt _ _ text1 _ _ text2) =>
      is_blank text1 = false /\ is_blank text2 = false
  | Chat _ => False
  | Translate _ _ _ => False
  | Sleep _ => True
  end.

(** A final segment keeps the times and the speaker of its source. *)
Definition same_slot (seg final_seg : Segment) : Prop :=
  start final_seg = start seg /\ end_ final_seg = end_ seg
  /\ speaker final_seg = speaker seg.

(** The task that [basic_translate_segments] runs for one segment. *)
Definition translate_task `{Capabilities} (is_async : bool) (src dest : str)
    (seg : Segment) : M tvalue :=
  if is_async then sem_translate (text seg) src dest
  else let* basic_trans := sync_translate (text seg) src dest in
       ret (VStr basic_trans).

(** ** Test doubles

    Concrete worlds for the examples below.  In a [scripted] world the
    backend can be set up, and the backend and the translator answer from a
    list of prepared replies, one per call, and raise once their list is
    used up; [bytes_decode] accepts ASCII and [parse_int] the literals 0
    and 1.  In the [offline] world the backend can be set up but every
    request and every call of the translator raises.  In the [no_backend]
    world the backend cannot be set up (the [ollama] module is missing, or
    there is no API key for the [OpenAI] client), and the translator
    returns its argument. *)

Record Script := mkScript {
  chat_script : list (option str);
  translate_script : list (option tvalue)
}.

Definition scripted : Capabilities := {|
  World := Script;
  backend_open := fun w => (true, w);
  backend_chat := fun _ w =>
    match chat_script w with
    | [] => (None, w)
    | r :: rest => (r, mkScript rest (translate_script w))
    end;
  translate_func := fun _ _ _ w =>
    match translate_script w with
    | [] => (None, w)
    | r :: rest => (r, mkScript (chat_script w) rest)
    end;
  bytes_decode := fun b => if forallb (fun c => c <? 128)%N b then Some b else None;
  parse_int := fun s =>
    if str_eqb s (lit "0") then Some 0%Z
    else if str_eqb s (lit "1") then Some 1%Z
    else None
|}.

Definition offline : Capabilities := {|
  World := unit;
  backend_open := fun w => (true, w);
  backend_chat := fun _ w => (None, w);
  translate_func := fun _ _ _ w => (None, w);
  bytes_decode := fun _ => None;
  parse_int := fun _ => None
|}.

Definition no_backend : Capabilities := {|
  World := unit;
  backend_open := fun w => (false, w);
  backend_chat := fun _ w => (None, w);
  translate_func := fun text _ _ w => (Some (VStr text), w);
  bytes_decode := fun _ => None;
  parse_int := fun _ => None
|}.

(** ** transcription.py *)

(** The loop of [post_process_segments]; the result list is built in the
    order in which the loop appends to [processed_segments]. *)
Fixpoint post_process_loop (segments : list Segment)
    (last_non_empty_text : option str) : list Segment :=
  match segments with
  | [] => []
  | segment :: rest =>
      let current_text := strip (text segment) in
      if negb (truthy current_text) then
        segment :: post_process_loop rest last_non_empty_text
      else if bool_decide (last_non_empty_text = Some current_text) then
        set_text segment [] :: post_process_loop rest last_non_empty_text
      else segment :: post_process_loop rest (Some current_text)
  end.

Definition post_process_segments (segments : list Segment) : list Segment :=
  post_process_loop segments None.

(** The trimmed texts of the segments that have text, in order. *)
Definition spoken_texts (segments : list Segment) : list str :=
  List.filter truthy ((fun seg => strip (text seg)) <$> segments).

(** No two neighbours of the list are equal. *)
Fixpoint no_repeat (l : list str) : Prop :=
  match l with
  | a :: (b :: _) as l' => a <> b /\ no_repeat l'
  | _ => True
  end.

(** ** subtitles.py: the time range of a group *)

(** [max(seg["end"] for seg in group)]: the first maximum, ValueError
    ([None]) on an empty group. *)
Definition group_end (group : list Segment) : option float :=
  match group with
  | [] => None
  | seg :: rest => Some (fold_left float_max (end_ <$> rest) (end_ seg))
  end.

(** Every member of a group but the first starts before the greatest end
    of the members before it. *)
Definition chained (group : list Segment) : Prop :=
  forall pre seg post,
    group = pre ++ seg :: post -> pre <> [] ->
    exists m, group_end pre = Some m /\ PrimFloat.ltb (start seg) m = true.

(** The first member of a group does not start before the greatest end of
    the group before it. *)
Definition separated (groups : list (list Segment)) : Prop :=
  forall k g seg rest,
    groups !! k = Some g -> groups !! (S k) = Some (seg :: rest) ->
    exists m, group_end g = Some m /\ PrimFloat.ltb (start seg) m = false.

(** ** Further observations on a run *)

Definition is_chat (e : Event) : bool :=
  match e with Chat _ => true | _ => false end.

(** The number of requests sent to the model backend. *)
Definition requests_made (evs : list Event) : nat :=
  length (List.filter is_chat evs).



(** The test that [llm_merge_segments] makes before it asks the model
    about a pair: both segments have text and the pair fits in four
    seconds. *)
Definition may_merge (seg1 seg2 : Segment) : bool :=
  negb (is_blank (text seg1) || is_blank (text seg2))
  && negb (PrimFloat.ltb (float_of_int 4)
             (PrimFloat.sub (end_ seg2) (start seg1))).

(** [merges_to segments merged]: [merged] comes from [segments] by merging,
    any number of times, two neighbours that pass the test above. *)
Inductive merges_to : list Segment -> list Segment -> Prop :=
  | merges_done segments : merges_to segments segments
  | merges_pair pre seg1 seg2 post merged :
      may_merge seg1 seg2 = true ->
      merges_to (pre ++ merged_segment seg1 seg2 :: post) merged ->
      merges_to (pre ++ seg1 :: seg2 :: post) merged.

(** A segment that lasts at most four seconds (as the merge loop tests it). *)
Definition within_cap (seg : Segment) : Prop :=
  PrimFloat.ltb (float_of_int 4) (PrimFloat.sub (end_ seg) (start seg)) = false.

(** A world whose translation function returns its argument as text,
    whatever the languages, and whose model backend can be set up but fails
    at every request. *)
Definition echoing : Capabilities := {|
  World := unit;
  backend_open := fun w => (true, w);
  backend_chat := fun _ w => (None, w);
  translate_func := fun text _ _ w => (Some (VStr text), w);
  bytes_decode := fun _ => None;
  parse_int := fun _ => None
|}.

(** ** translation.py: niutrans_translate

    The HTTP service is one more capability: a request carries the two
    language codes, the key and the text; the reply, once parsed, is a JSON
    object with a "tgt_text", a JSON value without it, or an exception
    (from [urlopen], [read] or [json.loads]). *)













(** ** translation.py: async_basic_translate

    The googletrans client is one more capability, with its two calls
    [detect] and [translate]; [None] is an exception raised anywhere in the
    [try] block around the call (entering and leaving the client
    included). *)

Inductive GEvent :=
  | GDetect (text : str)
  | GTranslate (text src dest : str)
  | GSleep (seconds : N).

Class Translator := {
  Goog : Type;
  (** [(await translator.detect(text)).lang] *)
  detect : str -> Goog -> option str * Goog;
  (** [(await translator.translate(text, src=src, dest=dest)).text] *)
  google_translate : str -> str -> str -> Goog -> option str * Goog
}.

(** The retry loop of [async_basic_translate]:
    [remaining = max_attempts - attempt]; the variable [src] keeps a
    detected language for the attempts that follow; an empty [src] is the
    falsy one ([None] or ""). *)
Fixpoint google_retry `{Translator} (remaining : nat) (text src dest : str)
    (g : Goog) : str * Goog * list GEvent :=
  match remaining with
  | O => (text, g, [])
  | S k =>
      if truthy src then
        let '(r, g1) := google_translate text src dest g in
        match r with
        | Some translated => (translated, g1, [GTranslate text src dest])
        | None =>
            let '(res, g2, evs) := google_retry k text src dest g1 in
            (res, g2, GTranslate text src dest :: GSleep 1 :: evs)
        end
      else
        let '(d, g1) := detect text g in
        match d with
        | None =>
            let '(res, g2, evs) := google_retry k text src dest g1 in
            (res, g2, GDetect text :: GSleep 1 :: evs)
        | Some lang =>
            let '(r, g2) := google_translate text lang dest g1 in
            match r with
            | Some translated =>
                (translated, g2, [GDetect text; GTranslate text lang dest])
            | None =>
                let '(res, g3, evs) := google_retry k text lang dest g2 in
                (res, g3,
                 GDetect text :: GTranslate text lang dest :: GSleep 1 :: evs)
            end
        end
  end.

Definition async_basic_translate `{Translator} (text dest src : str) (g : Goog)
  : str * Goog * list GEvent :=
  let dest := normalize_language_code_for_google dest in
  let src := if truthy src then normalize_language_code_for_google src else [] in
  google_retry 10 text src dest g.


Definition is_gdetect (e : GEvent) : bool :=
  match e with GDetect _ => true | _ => false end.



(** The pipeline with [async_basic_translate] as its translation function,
    as the command line sets it up, and without a model backend. *)
Definition google_capabilities `{Translator} : Capabilities := {|
  World := Goog * list GEvent;
  backend_open := fun w => (false, w);
  backend_chat := fun _ w => (None, w);
  translate_func := fun text src dest w =>
    let '(r, g, evs) := async_basic_translate text dest src w.1 in
    (Some (VStr r), (g, w.2 ++ evs));
  bytes_decode := fun _ => None;
  parse_int := fun _ => None
|}.

(** A client whose calls all raise. *)
Definition google_down : Translator := {|
  Goog := unit;
  detect := fun _ g => (None, g);
  google_translate := fun _ _ _ g => (None, g)
|}.

(** * Properties *)

(** ** SubtitleRenderer *)


(** C9: there is a non-negative number of seconds, 0.9996, whose fractional
    part rounds to 1000 milliseconds, for which the SRT formatter prints a
    four-digit millisecond field and does not carry into the seconds. *)
Theorem format_timestamp_millis_overflow :
  exists seconds : float,
    PrimFloat.leb 0%float seconds = true
    /\ int_of_float seconds = Some 0%Z
    /\ round_float
         (PrimFloat.mul (PrimFloat.sub seconds (float_of_int 0))
            (float_of_int 1000)) = Some 1000%Z
    /\ format_timestamp seconds = Some (lit "00:00:00,1000").
Proof. exists 0.9996%float. repeat split; vm_compute; reflexivity. Qed.

Lemma group_loop_concat segments : forall groups current_group current_end,
  concat (group_loop segments groups current_group current_end)
  = concat groups ++ current_group ++ segments.
Proof.
  induction segments as [|seg rest IH]; intros groups cur ce; simpl.
  - destruct cur as [|c cur'].
    + now rewrite app_nil_r.
    + rewrite concat_app. simpl. now rewrite !app_nil_r.
  - destruct cur as [|c cur'].
    + now rewrite IH.
    + destruct (PrimFloat.ltb (start seg) ce); rewrite IH.
      * now rewrite <- (app_assoc (c :: cur') [seg] rest).
      * rewrite concat_app. simpl. now rewrite app_nil_r, <- app_assoc.
Qed.

Lemma group_loop_nonempty segments : forall groups current_group current_end,
  Forall (fun g => g <> []) groups ->
  Forall (fun g => g <> []) (group_loop segments groups current_group current_end).
Proof.
  induction segments as [|seg rest IH]; intros groups cur ce Hg; simpl.
  - destruct cur as [|c cur']; [assumption|].
    apply Forall_app; split; [assumption|]. now repeat constructor.
  - destruct cur as [|c cur']; [now apply IH|].
    destruct (PrimFloat.ltb (start seg) ce); apply IH; [assumption|].
    apply Forall_app; split; [assumption|]. now repeat constructor.
Qed.

(** C10: the grouping step partitions its input: the groups, concatenated in
    order, are the input list (every segment once, at its place), and no
    group is empty. *)
Theorem group_overlapping_segments_partition (segments : list Segment) :
  concat (group_overlapping_segments segments) = segments
  /\ Forall (fun g => g <> []) (group_overlapping_segments segments).
Proof.
  unfold group_overlapping_segments. split.
  - now rewrite group_loop_concat.
  - apply group_loop_nonempty. constructor.
Qed.

(** ** Language codes *)

Lemma normalize_google_unmapped (lang : str) :
  google_mapping !! strip (lower lang) = None ->
  normalize_language_code_for_google lang = strip (lower lang).
Proof. unfold normalize_language_code_for_google. now intros ->. Qed.

Lemma normalize_api_unmapped (lang : str) :
  api_mapping !! strip (lower lang) = None ->
  normalize_language_code_for_api lang = strip (lower lang).
Proof. unfold normalize_language_code_for_api. now intros ->. Qed.

(** C8: the identifier "Klingon" is in neither table, yet neither function
    returns it unchanged: both return it lower-cased, "klingon", although
    their docstrings promise the original string for an identifier that is
    not found. *)
Theorem normalize_unmapped_not_unchanged :
  google_mapping !! lit "Klingon" = None
  /\ api_mapping !! lit "Klingon" = None
  /\ normalize_language_code_for_google (lit "Klingon") = lit "klingon"
  /\ normalize_language_code_for_api (lit "Klingon") = lit "klingon"
  /\ lit "klingon" <> lit "Klingon".
Proof. repeat split; try (vm_compute; reflexivity). discriminate. Qed.

(** ** MergeStage: the semantic test *)

Lemma merge_verdict_raised : merge_verdict Raised = false.
Proof. reflexivity. Qed.

Lemma merge_verdict_answer (answer : str) :
  answer <> [] ->
  merge_verdict (Returned answer)
  = negb (contains (lit "not") (lower answer) || contains (lit "不") answer).
Proof. destruct answer; [congruence|]. intros _. unfold merge_verdict. simpl truthy.
  now destruct (_ || _). Qed.

(** C1: when the model gives no answer (the empty string, which is what
    [chat_llm] returns once its five attempts have failed) the semantic
    test says merge, although an exception makes it say do-not-merge:
    with the backend offline, "hello" and "world" are merged. *)
Theorem should_merge_accepts_empty_answer :
  merge_verdict (Returned (lit "")) = true
  /\ merge_verdict Raised = false
  /\ result (@should_merge offline
               (mkSegment 0 2 (lit "hello") []) (mkSegment 2 3 (lit "world") [])
               tt) = true
  /\ result (@llm_merge_segments offline
               [mkSegment 0 2 (lit "hello") []; mkSegment 2 3 (lit "world") []]
               tt)
     = Some [mkSegment 0 3 (lit "hello world") []].
Proof. repeat split; vm_compute; reflexivity. Qed.

(** ** Runs in the monad *)

Section Runs.
Context `{Capabilities}.

Lemma bind_run {A B} (m : M A) (f : A -> M B) (w : World) :
  bind m f w
  = (result (f (result (m w)) (m w).1.2),
     (f (result (m w)) (m w).1.2).1.2,
     events (m w) ++ events (f (result (m w)) (m w).1.2)).
Proof.
  unfold bind, result, events.
  destruct (m w) as [[a w1] t1]; simpl.
  now destruct (f a w1) as [[b w2] t2].
Qed.

Lemma result_bind {A B} (m : M A) (f : A -> M B) w :
  result (bind m f w) = result (f (result (m w)) (m w).1.2).
Proof. now rewrite bind_run. Qed.

Lemma events_bind {A B} (m : M A) (f : A -> M B) w :
  events (bind m f w) = events (m w) ++ events (f (result (m w)) (m w).1.2).
Proof. now rewrite bind_run. Qed.



(** Every element of the list is handled by its own run of [f], and the
    result of that run sits at the index of the element. *)
Lemma mapM_lookup {A B} (f : A -> M B) (l : list A) : forall w i a,
  l !! i = Some a ->
  exists w' pre post,
    result (mapM f l w) !! i = Some (result (f a w'))
    /\ events (mapM f l w) = pre ++ events (f a w') ++ post.
Proof.
  induction l as [|x l IH]; intros w i a Hi; [discriminate|].
  cbn [mapM]. rewrite result_bind, events_bind, result_bind, events_bind.
  destruct i as [|i]; cbn in Hi.
  - injection Hi as ->. exists w, [], (events (mapM f l (f a w).1.2)).
    split; [reflexivity|]. cbn. now rewrite app_nil_r.
  - destruct (IH (f x w).1.2 i a Hi) as (w' & pre & post & Hr & He).
    exists w', (events (f x w) ++ pre), post. split.
    + cbn. exact Hr.
    + cbn. rewrite app_nil_r, He. now rewrite <- app_assoc.
Qed.

(** *** [chat_llm] *)

Lemma chat_retry_events remaining : forall sleep_time p w,
  Forall (fun e => e = Chat p \/ exists d, e = Sleep d)
    (events (chat_retry remaining sleep_time p w)).
Proof.
  induction remaining as [|k IH]; intros st p w; [constructor|].
  cbn [chat_retry]. rewrite events_bind.
  apply Forall_app; split.
  - unfold call_backend, events. destruct (backend_chat p w); cbn.
    repeat constructor.
  - destruct (result (call_backend p w)); [constructor|].
    rewrite events_bind. apply Forall_app; split; [|apply IH].
    constructor; [right; now eexists | constructor].
Qed.

Lemma open_backend_run w :
  open_backend w = ((backend_open w).1, (backend_open w).2, []).
Proof. unfold open_backend. now destruct (backend_open w). Qed.

(** A call of [chat_llm]: an exception and no event when the backend cannot
    be set up, the retry loop otherwise. *)
Lemma bind_ret_run {A B} (m : M A) (g : A -> B) (w : World) :
  (let* a := m in ret (g a)) w = (g (result (m w)), (m w).1.2, events (m w)).
Proof.
  unfold bind, ret, result, events. destruct (m w) as [[a w1] t1].
  cbn [fst snd]. now rewrite app_nil_r.
Qed.

Lemma chat_llm_run p w :
  chat_llm p w
  = if (backend_open w).1 then
      (Returned (result (chat_retry 5 1%N p (backend_open w).2)),
       (chat_retry 5 1%N p (backend_open w).2).1.2,
       events (chat_retry 5 1%N p (backend_open w).2))
    else (Raised, (backend_open w).2, []).
Proof.
  unfold chat_llm, chat_with_backend. unfold bind at 1.
  rewrite open_backend_run. destruct (backend_open w).1; [|reflexivity].
  now rewrite bind_ret_run.
Qed.

Lemma chat_llm_events p w :
  Forall (fun e => e = Chat p \/ exists d, e = Sleep d) (events (chat_llm p w)).
Proof.
  rewrite chat_llm_run. destruct (backend_open w).1; [|constructor].
  apply chat_retry_events.
Qed.

Lemma chat_retry_first k sleep_time p w :
  exists more, events (chat_retry (S k) sleep_time p w) = Chat p :: more.
Proof.
  cbn [chat_retry]. rewrite events_bind.
  unfold call_backend at 1, events at 1. destruct (backend_chat p w); cbn.
  now eexists.
Qed.

(** Once the backend is set up, the first thing [chat_llm] does is to send
    its prompt, and it returns an answer. *)
Lemma chat_llm_first p w :
  (backend_open w).1 = true ->
  exists answer w' more,
    chat_llm p w = (Returned answer, w', Chat p :: more).
Proof.
  intros Hopen. rewrite chat_llm_run, Hopen.
  destruct (chat_retry_first 4 1%N p (backend_open w).2) as [more ->].
  now do 3 eexists.
Qed.

(** A backend that raises at every request makes [chat_llm] return the
    empty string. *)
Lemma chat_retry_backend_down remaining : forall sleep_time p w,
  (forall p' w', (backend_chat p' w').1 = None) ->
  result (chat_retry remaining sleep_time p w) = [].
Proof.
  induction remaining as [|k IH]; intros st p w Hdown; [reflexivity|].
  cbn [chat_retry]. rewrite result_bind.
  unfold call_backend at 1 2, result at 2. specialize (Hdown p w) as Hp.
  destruct (backend_chat p w) as [r w1]. cbn in Hp. subst r. cbn [fst snd].
  rewrite result_bind. now apply IH.
Qed.

(** *** CorrectionStage and MergeStage never show blank text to the model *)

Lemma chat_events_nonblank p w :
  llm_text_nonblank (Chat p) ->
  Forall llm_text_nonblank (events (chat_llm p w)).
Proof.
  intros Hp. eapply Forall_impl; [apply chat_llm_events|].
  intros e [->|[d ->]]; [exact Hp | exact I].
Qed.

Lemma nonblank_texts_nonblank (segments : list Segment) :
  Forall (fun t => is_blank t = false) (nonblank_texts segments).
Proof.
  unfold nonblank_texts. apply Forall_fmap, Forall_forall. intros s Hs.
  apply list_elem_of_In, filter_In in Hs as [_ Hs].
  now apply negb_true_iff in Hs.
Qed.

Lemma correct_segment_events segments context_range i seg w :
  Forall llm_text_nonblank
    (events (correct_segment segments context_range i seg w)).
Proof.
  unfold correct_segment. destruct (is_blank (text seg)) eqn:Hblank.
  - constructor.
  - rewrite events_bind. apply Forall_app; split; [|constructor].
    apply chat_events_nonblank. cbn [llm_text_nonblank].
    split; [apply nonblank_texts_nonblank|].
    split; [apply nonblank_texts_nonblank | exact Hblank].
Qed.

Lemma correct_loop_events segments context_range rest : forall i w,
  Forall llm_text_nonblank
    (events (correct_loop segments context_range i rest w)).
Proof.
  induction rest as [|seg rest IH]; intros i w; [constructor|].
  cbn [correct_loop]. rewrite events_bind, events_bind.
  apply Forall_app; split; [apply correct_segment_events|].
  apply Forall_app; split; [apply IH | constructor].
Qed.

Lemma should_merge_events seg1 seg2 w :
  is_blank (text seg1) = false -> is_blank (text seg2) = false ->
  Forall llm_text_nonblank (events (should_merge seg1 seg2 w)).
Proof.
  intros H1 H2. unfold should_merge. rewrite events_bind.
  apply Forall_app; split; [|constructor].
  now apply chat_events_nonblank.
Qed.

Lemma merge_step_events i segments w :
  Forall llm_text_nonblank (events (merge_step i segments w)).
Proof.
  unfold merge_step.
  destruct (segments !! i) as [seg1|]; [|constructor].
  destruct (segments !! (i + 1)) as [seg2|]; [|constructor].
  destruct (is_blank (text seg1)) eqn:H1; [constructor|].
  destruct (is_blank (text seg2)) eqn:H2; [constructor|].
  cbn [orb]. destruct (PrimFloat.ltb _ _); [constructor|].
  rewrite events_bind. apply Forall_app; split.
  - now apply should_merge_events.
  - destruct (result (should_merge seg1 seg2 w)); constructor.
Qed.

Lemma merge_loop_events fuel : forall i segments w,
  Forall llm_text_nonblank (events (merge_loop fuel i segments w)).
Proof.
  induction fuel as [|fuel IH]; intros i segments w; cbn [merge_loop];
    destruct (S i <? length segments); try constructor.
  rewrite events_bind. apply Forall_app; split; [apply merge_step_events|].
  destruct (result (merge_step i segments w)) as [i' segments']. apply IH.
Qed.

(** *** TranslationStage: every task starts by calling the translator *)

Lemma sem_translate_first text src dest w :
  exists more,
    events (sem_translate text src dest w) = Translate text src dest :: more.
Proof.
  unfold sem_translate. cbn [sem_translate_loop]. rewrite events_bind.
  unfold call_translate at 1, events at 1.
  destruct (translate_func text src dest w); cbn. now eexists.
Qed.

Lemma sync_translate_first original src dest w :
  exists more,
    events (sync_translate original src dest w)
    = Translate original src dest :: more.
Proof.
  unfold sync_translate. cbn [sync_translate_loop]. rewrite events_bind.
  unfold call_translate at 1, events at 1.
  destruct (translate_func original src dest w); cbn. now eexists.
Qed.

Lemma translation_calls_every_text segments src dest is_async w i seg :
  segments !! i = Some seg ->
  Translate (text seg) src dest
    ∈ events (basic_translate_segments segments src dest is_async w).
Proof.
  intros Hi. unfold basic_translate_segments. destruct is_async.
  - destruct (mapM_lookup
                (fun seg => sem_translate (text seg) src dest) segments w i seg Hi)
      as (w' & pre & post & _ & ->).
    destruct (sem_translate_first (text seg) src dest w') as [more ->].
    set_solver.
  - destruct (mapM_lookup
                (fun seg => let* basic_trans :=
                              sync_translate (text seg) src dest in
                            ret (VStr basic_trans)) segments w i seg Hi)
      as (w' & pre & post & _ & ->).
    rewrite events_bind.
    destruct (sync_translate_first (text seg) src dest w') as [more ->].
    set_solver.
Qed.

(** *** TranslationStage: a task whose translator always raises *)




(** *** MergeStage: one merge *)

Lemma delete_insert_splice {A} (x : A) : forall i (l : list A),
  i + 1 < length l ->
  delete (i + 1) (<[i := x]> l) = take i l ++ x :: drop (i + 2) l.
Proof.
  induction i as [|i IH]; intros [|a [|b l]] Hlen; cbn in *; try lia.
  - reflexivity.
  - f_equal. apply (IH (b :: l)). cbn. lia.
Qed.

(** Every iteration of the merge loop brings the cursor one step closer to
    the end of the list, so [len(segments)] iterations are enough and
    [llm_merge_segments] returns a list that is no longer than its input. *)
Lemma merge_step_measure i segments w :
  S i < length segments ->
  length (result (merge_step i segments w)).2 - (result (merge_step i segments w)).1
  = length segments - S i
  /\ length (result (merge_step i segments w)).2 <= length segments.
Proof.
  intros Hi. unfold merge_step.
  destruct (lookup_lt_is_Some_2 segments i) as [seg1 ->]; [lia|].
  destruct (lookup_lt_is_Some_2 segments (i + 1)) as [seg2 ->]; [lia|].
  destruct (is_blank (text seg1) || is_blank (text seg2));
    [unfold result, ret; cbn [fst snd]; lia|].
  destruct (PrimFloat.ltb _ _); [unfold result, ret; cbn [fst snd]; lia|].
  rewrite result_bind. destruct (result (should_merge seg1 seg2 w));
    unfold result, ret; cbn [fst snd]; [|lia].
  rewrite length_delete, length_insert; [lia|].
  apply lookup_lt_is_Some_2. rewrite length_insert. lia.
Qed.

Lemma merge_loop_terminates fuel : forall i segments w,
  length segments - i <= S fuel ->
  exists merged,
    result (merge_loop fuel i segments w) = Some merged
    /\ length merged <= length segments.
Proof.
  induction fuel as [|fuel IH]; intros i segments w Hfuel; cbn [merge_loop];
    destruct (S i <? length segments) eqn:Hguard;
    try (exists segments; now split).
  - apply Nat.ltb_lt in Hguard. lia.
  - apply Nat.ltb_lt in Hguard. rewrite result_bind.
    destruct (merge_step_measure i segments w Hguard) as [Hm Hle].
    destruct (result (merge_step i segments w)) as [i' segments'].
    cbn [fst snd] in Hm, Hle.
    destruct (IH i' segments' (merge_step i segments w).1.2) as (merged & -> & Hl);
      [lia|].
    exists merged. split; [reflexivity | lia].
Qed.

Lemma llm_merge_segments_terminates segments w :
  exists merged,
    result (llm_merge_segments segments w) = Some merged
    /\ length merged <= length segments.
Proof.
  unfold llm_merge_segments. destruct segments as [|seg rest].
  - now exists [].
  - apply merge_loop_terminates. lia.
Qed.

(** C4, as the code has it: when both texts are non-blank, the pair is
    within the duration cap and the semantic test says merge, the step
    replaces seg[i] by the segment with the start and the speaker of seg[i],
    the end of seg[i+1] and the two trimmed texts joined by one space,
    removes seg[i+1], and leaves the cursor where it is. *)
Theorem merge_step_on_positive_verdict
    (i : nat) (segments : list Segment) (seg1 seg2 : Segment) (w : World) :
  segments !! i = Some seg1 ->
  segments !! (i + 1) = Some seg2 ->
  is_blank (text seg1) = false ->
  is_blank (text seg2) = false ->
  PrimFloat.ltb (float_of_int 4) (PrimFloat.sub (end_ seg2) (start seg1)) = false ->
  result (should_merge seg1 seg2 w) = true ->
  result (merge_step i segments w)
  = (i,
     take i segments
     ++ mkSegment (start seg1) (end_ seg2)
          (strip (text seg1) ++ lit " " ++ strip (text seg2)) (speaker seg1)
        :: drop (i + 2) segments).
Proof.
  intros H1 H2 Hb1 Hb2 Hcap Hverdict. unfold merge_step.
  rewrite H1, H2, Hb1, Hb2. cbn [orb]. rewrite Hcap.
  rewrite result_bind, Hverdict. unfold result, ret. cbn [fst].
  f_equal. apply delete_insert_splice.
  now apply lookup_lt_Some in H2.
Qed.

(** *** OptimizationStage: the loop and its buffer *)

Lemma optimize_translation_run original basic context_text dest w :
  (backend_open w).1 = true ->
  exists optimized w' more,
    optimize_translation original basic context_text dest w
    = (Some optimized, w',
       Chat (OptimizePrompt dest original context_text basic) :: more).
Proof.
  intros Hopen. unfold optimize_translation.
  destruct (chat_llm_first (OptimizePrompt dest original context_text basic)
              w Hopen) as (answer & w' & more & Hrun).
  unfold bind. rewrite Hrun. unfold ret. rewrite app_nil_r. now do 3 eexists.
Qed.

Lemma select_best_translation_run context_text original basic optimized dest w :
  (backend_open w).1 = true ->
  exists chosen w' evs,
    select_best_translation context_text original basic optimized dest w
    = (Some chosen, w', evs).
Proof.
  intros Hopen. unfold select_best_translation.
  destruct (chat_llm_first
              (SelectPrompt dest context_text original basic optimized) w Hopen)
    as (answer & w' & more & Hrun).
  unfold bind. rewrite Hrun. unfold ret. now do 3 eexists.
Qed.

(** One iteration, when the backend can be set up (or is not used): it
    succeeds when [i] is in range for both lists, writes the chosen text to
    index [i] only, and with [use_llm] starts by asking the model to
    optimize, showing it the context read from the buffer. *)
Lemma optimize_step_run segments use_llm cr dest i bt w seg basic :
  (use_llm = true -> forall w', (backend_open w').1 = true) ->
  segments !! i = Some seg ->
  bt !! i = Some basic ->
  exists chosen w' evs,
    optimize_step segments use_llm cr dest i bt w
    = (Some (set_text seg chosen, <[i := chosen]> bt), w', evs)
    /\ (use_llm = true ->
        exists more,
          evs = Chat (OptimizePrompt dest (text seg)
                        (context_text_at (length segments) bt cr i) basic)
                :: more).
Proof.
  intros Hopen Hseg Hbasic. unfold optimize_step. rewrite Hseg, Hbasic.
  destruct use_llm.
  - specialize (Hopen eq_refl).
    set (ctx := context_text_at (length segments) bt cr i).
    destruct (optimize_translation_run (text seg) basic ctx dest w (Hopen w))
      as (optimized & w1 & more & Hrun).
    assert (Hsel : exists chosen w2 e2,
      (if str_eqb basic optimized then ret (Some optimized)
       else select_best_translation ctx (text seg) basic optimized dest) w1
      = (Some chosen, w2, e2)).
    { destruct (str_eqb basic optimized).
      - now exists optimized, w1, [].
      - apply select_best_translation_run, Hopen. }
    destruct Hsel as (chosen & w2 & e2 & Hsel).
    unfold bind. rewrite Hrun, Hsel. unfold ret.
    exists chosen, w2. eexists. split; [reflexivity|].
    intros _. cbn [app]. now eexists.
  - exists basic, w, []. split; [|discriminate].
    unfold ret. now rewrite (list_insert_id _ _ _ Hbasic).
Qed.

(** Whatever an iteration does, it does not change the length of the
    buffer. *)
Lemma optimize_step_length segments use_llm cr dest i bt w fseg bt1 w1 e1 :
  optimize_step segments use_llm cr dest i bt w = (Some (fseg, bt1), w1, e1) ->
  length bt1 = length bt.
Proof.
  unfold optimize_step.
  destruct (segments !! i) as [seg|]; [|discriminate].
  destruct (bt !! i) as [basic|]; [|discriminate].
  destruct use_llm; [|unfold ret; now intros [= _ <- _ _]].
  unfold bind.
  destruct (optimize_translation _ _ _ _ w) as [[[optimized|] w2] e2];
    [|unfold ret; discriminate].
  destruct ((if str_eqb basic optimized then ret (Some optimized)
             else select_best_translation _ _ _ _ _) w2)
    as [[[chosen|] w3] e3]; unfold ret; [|discriminate].
  intros [= _ <- _ _]. apply length_insert.
Qed.

Lemma optimize_loop_app segments use_llm cr dest is1 is2 : forall bt w,
  optimize_loop segments use_llm cr dest (is1 ++ is2) bt w
  = match optimize_loop segments use_llm cr dest is1 bt w with
    | (None, w1, e1) => (None, w1, e1)
    | (Some (f1, b1), w1, e1) =>
        let '(r2, w2, e2) := optimize_loop segments use_llm cr dest is2 b1 w1 in
        (match r2 with
         | None => None
         | Some (f2, b2) => Some (f1 ++ f2, b2)
         end, w2, e1 ++ e2)
    end.
Proof.
  induction is1 as [|i is1 IH]; intros bt w.
  - cbn. destruct (optimize_loop _ _ _ _ is2 bt w) as [[[[f2 b2]|] w2] e2];
      reflexivity.
  - cbn [app optimize_loop]. unfold bind.
    destruct (optimize_step segments use_llm cr dest i bt w)
      as [[[[fseg bt1]|] w1] e1]; [|reflexivity].
    rewrite IH.
    destruct (optimize_loop _ _ _ _ is1 bt1 w1) as [[[[f1 b1]|] w2] e2];
      [|reflexivity].
    cbn.
    destruct (optimize_loop _ _ _ _ is2 b1 w2) as [[[[f2 b2]|] w3] e3];
      cbn; now rewrite !app_nil_r, !app_assoc.
Qed.

Lemma optimize_loop_cons segments use_llm cr dest i indices bt w fseg bt1 w1 e1 :
  optimize_step segments use_llm cr dest i bt w = (Some (fseg, bt1), w1, e1) ->
  optimize_loop segments use_llm cr dest (i :: indices) bt w
  = let '(r, w2, e2) := optimize_loop segments use_llm cr dest indices bt1 w1 in
    (match r with
     | None => None
     | Some (fs, b) => Some (fseg :: fs, b)
     end, w2, e1 ++ e2).
Proof.
  intros Hstep. cbn [optimize_loop]. unfold bind. rewrite Hstep.
  destruct (optimize_loop _ _ _ _ indices bt1 w1) as [[[[fs b]|] w2] e2];
    unfold ret; now rewrite app_nil_r.
Qed.

(** The state of the loop when iteration [i] starts. *)
Lemma optimize_loop_prefix segments use_llm cr dest bt0 w :
  (use_llm = true -> forall w', (backend_open w').1 = true) ->
  length segments <= length bt0 ->
  forall i, i <= length segments ->
  exists fs buf w_i pre,
    optimize_loop segments use_llm cr dest (seq 0 i) bt0 w
    = (Some (fs, buf), w_i, pre)
    /\ Forall2 same_slot (take i segments) fs
    /\ length buf = length bt0
    /\ take i buf = text <$> fs
    /\ drop i buf = drop i bt0.
Proof.
  intros Hopen Hlen. induction i as [|i IH]; intros Hi.
  - exists [], bt0, w, []. cbn. rewrite take_0, !drop_0. repeat split. constructor.
  - destruct IH as (fs & buf & w_i & pre & Hrun & Hslots & Hlb & Htake & Hdrop);
      [lia|].
    destruct (lookup_lt_is_Some_2 segments i) as [seg Hseg]; [lia|].
    assert (Hbuf : buf !! i = bt0 !! i).
    { pose proof (lookup_drop buf i 0) as E1.
      pose proof (lookup_drop bt0 i 0) as E2.
      rewrite Nat.add_0_r in E1, E2. now rewrite <- E1, <- E2, Hdrop. }
    destruct (lookup_lt_is_Some_2 bt0 i) as [basic Hbasic]; [lia|].
    rewrite Hbasic in Hbuf.
    destruct (optimize_step_run segments use_llm cr dest i buf w_i seg basic
                Hopen Hseg Hbuf) as (chosen & w' & evs & Hstep & _).
    exists (fs ++ [set_text seg chosen]), (<[i := chosen]> buf), w', (pre ++ evs).
    rewrite seq_S, optimize_loop_app, Hrun. cbn [Nat.add optimize_loop].
    unfold bind. rewrite Hstep. cbn. rewrite !app_nil_r. repeat split.
    + rewrite (take_S_r _ _ _ Hseg). apply Forall2_app; [exact Hslots|].
      repeat constructor.
    + now rewrite length_insert.
    + rewrite fmap_app. cbn. rewrite <- Htake.
      assert (Hi' : i < length buf) by lia.
      rewrite <- (take_insert_ge buf i i chosen) by lia.
      apply take_S_r. now apply list_lookup_insert_eq.
    + rewrite drop_insert_lt by lia.
      rewrite <- (Nat.add_1_r i), <- !drop_drop. now rewrite Hdrop.
Qed.

Lemma basic_translate_segments_tasks segments src dest is_async :
  basic_translate_segments segments src dest is_async
  = mapM (translate_task is_async src dest) segments.
Proof. unfold basic_translate_segments, translate_task. now destruct is_async. Qed.

Lemma optimize_run_total segments bt0 use_llm cr dest w :
  (use_llm = true -> forall w', (backend_open w').1 = true) ->
  length segments <= length bt0 ->
  exists final bt_end,
    result (optimize_translations_with_context segments bt0 use_llm cr dest w)
    = Some (final, bt_end)
    /\ Forall2 same_slot segments final.
Proof.
  intros Hopen Hlen. unfold optimize_translations_with_context.
  destruct (optimize_loop_prefix segments use_llm cr dest bt0 w Hopen Hlen
              (length segments)) as (fs & buf & w' & evs & -> & Hslots & _);
    [lia|].
  exists fs, buf. split; [reflexivity|]. now rewrite firstn_all in Hslots.
Qed.

(** With [use_llm] and a backend that can be set up, iteration [i] starts
    from a buffer that holds the texts chosen so far and then the basic
    translations, and its first event is the request to optimize segment
    [i], with the context read from that buffer. *)
Lemma optimize_run_request segments bt0 cr dest w i seg basic :
  (forall w', (backend_open w').1 = true) ->
  length segments <= length bt0 ->
  segments !! i = Some seg ->
  bt0 !! i = Some basic ->
  exists final bt_end post,
    let buf := (text <$> take i final) ++ drop i bt0 in
    let before_i := optimize_loop segments true cr dest (seq 0 i) bt0 w in
    let run := optimize_translations_with_context segments bt0 true cr dest w in
    length final = length segments
    /\ result run = Some (final, bt_end)
    /\ result before_i = Some (take i final, buf)
    /\ events run
       = events before_i
         ++ Chat (OptimizePrompt dest (text seg)
                    (context_text_at (length segments) buf cr i) basic)
            :: post.
Proof.
  intros Hopen Hlen Hseg Hbasic.
  assert (Hopen' : true = true -> forall w', (backend_open w').1 = true)
    by (intros _; exact Hopen).
  assert (Hi : i < length segments) by now apply lookup_lt_Some in Hseg.
  destruct (optimize_loop_prefix segments true cr dest bt0 w Hopen' Hlen i)
    as (fs & buf & w_i & pre & Hpre & Hslots & Hlb & Htake & Hdrop); [lia|].
  assert (Hfs : length fs = i).
  { apply Forall2_length in Hslots. rewrite length_take in Hslots. lia. }
  assert (Hbuf : buf !! i = Some basic).
  { pose proof (lookup_drop buf i 0) as E1.
    pose proof (lookup_drop bt0 i 0) as E2.
    rewrite Nat.add_0_r in E1, E2. now rewrite <- E1, Hdrop, E2. }
  destruct (optimize_step_run segments true cr dest i buf w_i seg basic
              Hopen' Hseg Hbuf)
    as (chosen & w' & evs & Hstep & Hfirst).
  destruct (Hfirst eq_refl) as [more ->].
  destruct (optimize_run_total segments bt0 true cr dest w Hopen' Hlen)
    as (final & bt_end & Hrun & Hall).
  apply Forall2_length in Hall.
  revert Hrun. unfold optimize_translations_with_context.
  assert (Hseq : seq 0 (length segments)
                 = seq 0 i ++ i :: seq (S i) (length segments - S i)).
  { replace (length segments) with (i + S (length segments - S i)) at 1 by lia.
    now rewrite seq_app. }
  rewrite Hseq, optimize_loop_app, Hpre,
    (optimize_loop_cons _ _ _ _ _ _ _ _ _ _ _ _ Hstep).
  destruct (optimize_loop segments true cr dest
              (seq (S i) (length segments - S i)) (<[i := chosen]> buf) w')
    as [[[[f2 b2]|] w3] e3]; unfold result; cbn [fst snd]; [|discriminate].
  intros [= <- <-].
  assert (Hbuf_eq : buf = (text <$> take i (fs ++ set_text seg chosen :: f2))
                          ++ drop i bt0).
  { rewrite take_app_length' by easy.
    now rewrite <- Htake, <- Hdrop, take_drop. }
  exists (fs ++ set_text seg chosen :: f2), b2, (more ++ e3).
  cbn zeta. rewrite <- Hbuf_eq. unfold events. cbn [snd].
  repeat split.
  - now symmetry.
  - now rewrite take_app_length'.
Qed.

(** The context of iteration [i], in terms of the two slices of the buffer
    that the code reads. *)
Lemma context_text_at_slices n (chosen basic : list str) cr i :
  length chosen = i ->
  context_text_at n (chosen ++ drop i basic) cr i
  = join nl
      ((if 0 <? i then [lit "前文: " ++ join nl (slice chosen (i - cr) i)]
        else [])
       ++ (if S i <? n
           then [lit "后文: "
                 ++ join nl (slice basic (i + 1) (n `min` (i + cr + 1)))]
           else [])).
Proof.
  intros Hlen. unfold context_text_at. f_equal. f_equal.
  - destruct (0 <? i); [|reflexivity]. do 3 f_equal. unfold slice.
    rewrite drop_app_le by lia.
    rewrite take_app_length' by (rewrite length_drop; lia).
    rewrite take_ge by (rewrite length_drop; lia). reflexivity.
  - destruct (S i <? n); [|reflexivity]. do 3 f_equal. unfold slice.
    rewrite drop_app_ge by lia. rewrite drop_drop. do 2 f_equal. lia.
Qed.


Lemma slice_take {A} (l : list A) (a i : nat) :
  a <= i -> slice (take i l) a i = slice l a i.
Proof.
  intros Ha. unfold slice. rewrite !take_drop_commute.
  replace (a + (i - a)) with i by lia. now rewrite take_take, Nat.min_id.
Qed.

(** C2, as the code has it: the correction stage and the merge stage send
    the model nothing but requests in which every segment text is non-blank,
    the text of the segment in question, the texts of its context and the
    two texts of a pair alike; the translation stage, in both of its modes,
    calls the translation function on the text of every segment, blank or
    not; and the optimization stage with [use_llm], given a basic
    translation per segment and a backend that can be set up, asks the
    model to optimize the text of every segment, blank or not. *)
Theorem blank_text_guarded_before_translation
    (segments : list Segment) (context_range : nat) (src dest : str)
    (is_async : bool) (basic_translations : list str) (w : World)
    (i : nat) (seg : Segment) :
  segments !! i = Some seg ->
  Forall llm_text_nonblank
    (events (llm_correct_segments segments context_range w))
  /\ Forall llm_text_nonblank (events (llm_merge_segments segments w))
  /\ Translate (text seg) src dest
       ∈ events (basic_translate_segments segments src dest is_async w)
  /\ ((forall w', (backend_open w').1 = true) ->
      length segments <= length basic_translations ->
      exists context_text basic_translation,
        Chat (OptimizePrompt dest (text seg) context_text basic_translation)
          ∈ events (optimize_translations_with_context segments
                      basic_translations true context_range dest w)).
Proof.
  intros Hi. split; [|split; [|split]].
  - unfold llm_correct_segments. destruct segments; [constructor|].
    apply correct_loop_events.
  - unfold llm_merge_segments. destruct segments; [constructor|].
    apply merge_loop_events.
  - now apply translation_calls_every_text with i.
  - intros Hopen Hlen.
    destruct (lookup_lt_is_Some_2 basic_translations i) as [basic Hbasic];
      [apply lookup_lt_Some in Hi; lia|].
    destruct (optimize_run_request segments basic_translations context_range
                dest w i seg basic Hopen Hlen Hi Hbasic)
      as (final & bt_end & post & _ & _ & _ & Hev).
    cbn zeta in Hev. do 2 eexists. rewrite Hev.
    apply elem_of_app. right. apply elem_of_cons. now left.
Qed.

(** C5: with [use_llm] (and a backend that can be set up, so that the loop
    gets to every segment), iteration i starts from a buffer that holds the
    texts chosen by the earlier iterations below i and the basic
    translations from i on, and it starts by asking the model to optimize
    segment i with a context string made of two parts: "前文: " with the
    chosen texts of the segments [max(0, i - context_range) .. i - 1],
    joined by newlines, when i > 0, and "后文: " with the basic translations
    [i + 1 .. min(len, i + context_range)], joined by newlines, when i is
    not the last index. *)
Theorem optimization_context_feedback
    (segments : list Segment) (bt0 : list str) (context_range : nat)
    (dest_language : str) (w : World) (i : nat) (seg : Segment) (basic : str) :
  (forall w', (backend_open w').1 = true) ->
  length segments <= length bt0 ->
  segments !! i = Some seg ->
  bt0 !! i = Some basic ->
  exists final bt_end post,
    let end_idx := length segments `min` (i + context_range + 1) in
    let chosen_before := text <$> slice final (i - context_range) i in
    let basic_after := slice bt0 (i + 1) end_idx in
    let context_text :=
      join nl
        ((if 0 <? i then [lit "前文: " ++ join nl chosen_before] else [])
         ++ (if S i <? length segments
             then [lit "后文: " ++ join nl basic_after]
             else [])) in
    let before_i :=
      optimize_loop segments true context_range dest_language (seq 0 i) bt0 w in
    let run :=
      optimize_translations_with_context segments bt0 true context_range
        dest_language w in
    result run = Some (final, bt_end)
    /\ result before_i
       = Some (take i final, (text <$> take i final) ++ drop i bt0)
    /\ events run
       = events before_i
         ++ Chat (OptimizePrompt dest_language (text seg) context_text basic)
            :: post.
Proof.
  intros Hopen Hlen Hseg Hbasic.
  assert (Hi : i < length segments) by now apply lookup_lt_Some in Hseg.
  destruct (optimize_run_request segments bt0 context_range dest_language w i
              seg basic Hopen Hlen Hseg Hbasic)
    as (final & bt_end & post & Hfinal & Hrun & Hpre & Hev).
  exists final, bt_end, post. cbn zeta in *.
  split; [exact Hrun|]. split; [exact Hpre|].
  rewrite Hev, context_text_at_slices
    by (rewrite length_fmap, length_take; lia).
  unfold slice at 1. rewrite <- fmap_drop, <- fmap_take.
  fold (slice (take i final) (i - context_range) i).
  now rewrite slice_take by lia.
Qed.

End Runs.

(** ** Examples on concrete worlds *)

Example normalize_examples :
  normalize_language_code_for_google (lit "zh") = lit "zh-cn"
  /\ normalize_language_code_for_api (lit "zh-cn") = lit "zh"
  /\ normalize_language_code_for_google (lit " Hebrew ") = lit "iw"
  /\ normalize_language_code_for_api (lit "tlh") = lit "tlh".
Proof. repeat split; vm_compute; reflexivity. Qed.

(** [str.lower] beyond ASCII: the Kelvin sign becomes "k", an accented
    capital its small letter, the dotted capital I an "i" with a combining
    dot, and a capital sigma the final small sigma at the end of a word and
    the medial one elsewhere; so "Ko" written with the Kelvin sign
    is read as Korean. *)
Example lower_examples :
  lower [8490; 111]%N = lit "ko"
  /\ lower (lit "Élfique") = lit "élfique"
  /\ lower [304]%N = [105; 775]%N
  /\ lower (lit "ΟΔΥΣΣΕΥΣ") = lit "οδυσσευς"
  /\ normalize_language_code_for_google [8490; 111]%N = lit "ko"
  /\ normalize_language_code_for_api (lit " Élfique ") = lit "élfique".
Proof. repeat split; vm_compute; reflexivity. Qed.

Example format_timestamp_examples :
  format_timestamp 3725.5%float = Some (lit "01:02:05,500")
  /\ format_timestamp 0.0025%float = Some (lit "00:00:00,002")
  /\ format_ass_timestamp 3725.999%float = Some (lit "1:02:05.99")
  /\ format_timestamp infinity = None.
Proof. repeat split; vm_compute; reflexivity. Qed.

(** Two overlapping segments form one group, a third one that starts after
    them a group of its own. *)
Example grouping_example :
  let a := mkSegment 0 6 (lit "a") [] in
  let b := mkSegment 5 10 (lit "b") [] in
  let c := mkSegment 11 12 (lit "c") [] in
  group_overlapping_segments [a; b; c] = [[a; b]; [c]].
Proof. vm_compute. reflexivity. Qed.

(** The correction requests for "hello", "" and "world": the segment
    without text is not corrected and is not shown in the context of its
    neighbours. *)
Example correction_requests_example :
  let segments :=
    [mkSegment 0 1 (lit "hello") []; mkSegment 1 2 (lit "") [];
     mkSegment 2 3 (lit "world") []] in
  events (@llm_correct_segments scripted segments 10
            (mkScript [Some (lit "Hello"); Some (lit "World")] []))
  = [Chat (CorrectionPrompt [] [lit "world"] (lit "hello"));
     Chat (CorrectionPrompt [lit "hello"] [] (lit "world"))]
  /\ correction_context [] [lit "world"] = lit "Next context: world" ++ nl
  /\ correction_context [lit "a"; lit "b"] [lit "c"]
     = lit "Previous context: a b" ++ nl ++ lit "Next context: c" ++ nl.
Proof. repeat split; vm_compute; reflexivity. Qed.

(** "hello" and "world", one second apart, with a model that answers
    "Merge", become one segment; with "Do not merge" they stay apart. *)
Example merge_scenario :
  let segments := [mkSegment 0 2 (lit "hello") []; mkSegment 2 3 (lit "world") []] in
  result (@llm_merge_segments scripted segments (mkScript [Some (lit "Merge")] []))
  = Some [mkSegment 0 3 (lit "hello world") []]
  /\ result (@llm_merge_segments scripted segments
               (mkScript [Some (lit "Do not merge")] []))
     = Some segments
  /\ result (@llm_merge_segments scripted segments
               (mkScript [Some (lit "不合并")] []))
     = Some segments.
Proof. repeat split; vm_compute; reflexivity. Qed.

(** An arbitration answer that is not a number keeps the basic translation. *)
Example arbitration_parse_failure :
  result (@select_best_translation scripted (lit "") (lit "hello") (lit "basic")
            (lit "candidate") (lit "zh") (mkScript [Some (lit "maybe")] []))
  = Some (lit "basic").
Proof. vm_compute. reflexivity. Qed.

(** C2, as stated, fails: for a single segment with empty text the
    translation stage calls the translation function on the empty string,
    in the asynchronous and in the synchronous mode, and the optimization
    stage asks the model to optimize the empty string. *)
Lemma empty_text_sent_to_capabilities :
  let segments := [mkSegment 0 1 (lit "") (lit "")] in
  let w := mkScript [Some (lit "")] [Some (VStr (lit ""))] in
  text <$> segments = [ [] ]
  /\ events (@basic_translate_segments scripted segments (lit "en") (lit "zh")
               true w)
     = [Translate [] (lit "en") (lit "zh")]
  /\ events (@basic_translate_segments scripted segments (lit "en") (lit "zh")
               false w)
     = [Translate [] (lit "en") (lit "zh")]
  /\ events (@optimize_translations_with_context scripted segments [lit ""]
               true 10 (lit "zh") w)
     = [Chat (OptimizePrompt (lit "zh") [] [] [])].
Proof. repeat split; vm_compute; reflexivity. Qed.

Lemma blank_text_guarded_before_translation_witness :
  let segments :=
    [mkSegment 0 1 (lit "hello") []; mkSegment 1 2 (lit "") [];
     mkSegment 2 3 (lit "world") []] in
  let w := mkScript [Some (lit "Hello"); Some (lit "Do not merge")]
             [Some (VStr (lit "ni hao"))] in
  segments !! 1 = Some (mkSegment 1 2 (lit "") [])
  /\ (forall w', (@backend_open scripted w').1 = true)
  /\ length segments <= length [lit "a"; lit "b"; lit "c"]
  /\ Forall llm_text_nonblank
       (events (@llm_correct_segments scripted segments 10 w))
  /\ Forall llm_text_nonblank
       (events (@llm_merge_segments scripted segments w))
  /\ Translate (lit "") (lit "en") (lit "zh")
       ∈ events (@basic_translate_segments scripted segments (lit "en")
                   (lit "zh") true w)
  /\ exists context_text basic_translation,
       Chat (OptimizePrompt (lit "zh") (lit "") context_text basic_translation)
         ∈ events (@optimize_translations_with_context scripted segments
                     [lit "a"; lit "b"; lit "c"] true 10 (lit "zh") w).
Proof.
  cbn zeta. split; [reflexivity|]. split; [intros w'; reflexivity|].
  split; [vm_compute; lia|].
  destruct (@blank_text_guarded_before_translation scripted
              [mkSegment 0 1 (lit "hello") []; mkSegment 1 2 (lit "") [];
               mkSegment 2 3 (lit "world") []]
              10 (lit "en") (lit "zh") true [lit "a"; lit "b"; lit "c"]
              (mkScript [Some (lit "Hello"); Some (lit "Do not merge")]
                 [Some (VStr (lit "ni hao"))])
              1 (mkSegment 1 2 (lit "") []) eq_refl)
    as (Hcorrect & Hmerge & Htranslate & Hoptimize).
  split; [exact Hcorrect|]. split; [exact Hmerge|]. split; [exact Htranslate|].
  apply Hoptimize; [intros w'; reflexivity | vm_compute; lia].
Defined.



(** C4, as stated, fails: the merged text is built from the trimmed texts,
    so " hello" and "world " give "hello world" and not the plain
    concatenation " hello world ". *)
Lemma merge_trims_texts :
  let seg1 := mkSegment 0 2 (lit " hello") [] in
  let seg2 := mkSegment 2 3 (lit "world ") [] in
  let w := mkScript [Some (lit "Merge")] [] in
  result (@merge_step scripted 0 [seg1; seg2] w)
  = (0, [mkSegment 0 3 (lit "hello world") []])
  /\ lit "hello world" <> text seg1 ++ lit " " ++ text seg2.
Proof. split; [vm_compute; reflexivity | vm_compute; discriminate]. Qed.

Lemma merge_step_on_positive_verdict_witness :
  let seg1 := mkSegment 0 2 (lit " hello") [] in
  let seg2 := mkSegment 2 3 (lit "world ") [] in
  let segments := [seg1; seg2; mkSegment 3 4 (lit "again") []] in
  let w := mkScript [Some (lit "Merge")] [] in
  segments !! 0 = Some seg1
  /\ segments !! (0 + 1) = Some seg2
  /\ is_blank (text seg1) = false
  /\ is_blank (text seg2) = false
  /\ PrimFloat.ltb (float_of_int 4) (PrimFloat.sub (end_ seg2) (start seg1)) = false
  /\ result (@should_merge scripted seg1 seg2 w) = true
  /\ result (@merge_step scripted 0 segments w)
     = (0, [mkSegment 0 3 (lit "hello world") []; mkSegment 3 4 (lit "again") []]).
Proof.
  cbn zeta. do 6 (split; [vm_compute; reflexivity|]).
  exact (@merge_step_on_positive_verdict scripted 0
           [mkSegment 0 2 (lit " hello") []; mkSegment 2 3 (lit "world ") [];
            mkSegment 3 4 (lit "again") []]
           (mkSegment 0 2 (lit " hello") []) (mkSegment 2 3 (lit "world ") [])
           (mkScript [Some (lit "Merge")] [])
           eq_refl eq_refl eq_refl eq_refl eq_refl eq_refl).
Defined.

Lemma optimization_context_feedback_witness :
  let segments :=
    [mkSegment 0 2 (lit "hello") []; mkSegment 2 3 (lit "world") [];
     mkSegment 3 4 (lit "again") []] in
  let bt0 := [lit "a"; lit "b"; lit "c"] in
  let w := mkScript [Some (lit "A"); Some (lit "1"); Some (lit "B");
                     Some (lit "0"); Some (lit "c")] [] in
  (forall w', (@backend_open scripted w').1 = true)
  /\ length segments <= length bt0
  /\ segments !! 1 = Some (mkSegment 2 3 (lit "world") [])
  /\ bt0 !! 1 = Some (lit "b")
  /\ exists final bt_end post,
       let chosen_before := text <$> slice final (1 - 10) 1 in
       let basic_after := slice bt0 (1 + 1) (length segments `min` (1 + 10 + 1)) in
       let context_text :=
         join nl ([lit "前文: " ++ join nl chosen_before]
                  ++ [lit "后文: " ++ join nl basic_after]) in
       let before_i :=
         @optimize_loop scripted segments true 10 (lit "zh") (seq 0 1) bt0 w in
       let run :=
         @optimize_translations_with_context scripted segments bt0 true 10
           (lit "zh") w in
       result run = Some (final, bt_end)
       /\ result before_i = Some (take 1 final, (text <$> take 1 final) ++ drop 1 bt0)
       /\ events run
          = events before_i
            ++ Chat (OptimizePrompt (lit "zh") (lit "world") context_text
                       (lit "b"))
               :: post.
Proof.
  cbn zeta. split; [intros w'; reflexivity|]. split; [vm_compute; lia|].
  do 2 (split; [reflexivity|]).
  exact (@optimization_context_feedback scripted
           [mkSegment 0 2 (lit "hello") []; mkSegment 2 3 (lit "world") [];
            mkSegment 3 4 (lit "again") []]
           [lit "a"; lit "b"; lit "c"] 10 (lit "zh")
           (mkScript [Some (lit "A"); Some (lit "1"); Some (lit "B");
                      Some (lit "0"); Some (lit "c")] [])
           1 (mkSegment 2 3 (lit "world") []) (lit "b")
           (fun w' => eq_refl) (le_n 3) eq_refl eq_refl).
Defined.

(** The same run, spelled out: the request for segment 1 shows "A", the
    text chosen for segment 0, before it and "c", the basic translation of
    segment 2, after it. *)
Example optimization_context_example :
  let segments :=
    [mkSegment 0 2 (lit "hello") []; mkSegment 2 3 (lit "world") [];
     mkSegment 3 4 (lit "again") []] in
  let w := mkScript [Some (lit "A"); Some (lit "1"); Some (lit "B");
                     Some (lit "0"); Some (lit "c")] [] in
  let run :=
    @optimize_translations_with_context scripted segments
      [lit "a"; lit "b"; lit "c"] true 10 (lit "zh") w in
  text <$> (default ([], []) (result run)).1 = [lit "A"; lit "b"; lit "c"]
  /\ events run !! 2
     = Some (Chat (OptimizePrompt (lit "zh") (lit "world")
                     (lit "前文: A" ++ nl ++ lit "后文: c") (lit "b"))).
Proof. split; vm_compute; reflexivity. Qed.

(** C6, where the code breaks it: in a world in which the backend cannot
    be set up (no [ollama] module, or no API key for the [OpenAI] client),
    [chat_llm] raises before its retry loop.  The translation stage is not
    concerned and returns one translation per segment; the correction and
    merge stages catch the exception and return their input; the
    optimization stage, whose [optimize_translation] calls [chat_llm]
    outside any [try], raises with it and returns no list at all. *)
Theorem optimization_stage_raises_without_backend :
  let segments := [mkSegment 0 2 (lit "hello") []; mkSegment 2 3 (lit "world") []] in
  let translations := [lit "hello"; lit "world"] in
  result (@basic_translate_segments no_backend segments (lit "en") (lit "zh")
            false tt)
  = VStr <$> translations
  /\ length translations = length segments
  /\ result (@chat_llm no_backend
               (OptimizePrompt (lit "zh") (lit "hello") (lit "后文: world")
                  (lit "hello")) tt)
     = Raised
  /\ result (@optimize_translations_with_context no_backend segments
               translations true 10 (lit "zh") tt)
     = None
  /\ result (@llm_correct_segments no_backend segments 10 tt) = segments
  /\ result (@llm_merge_segments no_backend segments tt) = Some segments.
Proof. repeat split; vm_compute; reflexivity. Qed.

(** * Further properties of the code *)

(** ** Strings *)

Lemma lstrip_snoc (s : list N) (c : N) :
  lstrip (s ++ [c])
  = match lstrip s with
    | [] => if isspace c then [] else [c]
    | r => r ++ [c]
    end.
Proof.
  induction s as [|a s IH]; cbn [app lstrip].
  - now destruct (isspace c).
  - destruct (isspace a); [exact IH | reflexivity].
Qed.

Lemma rstrip_cons (c : N) (s : list N) :
  rstrip (c :: s)
  = match rstrip s with
    | [] => if isspace c then [] else [c]
    | r => c :: r
    end.
Proof.
  unfold rstrip. rewrite reverse_cons, lstrip_snoc.
  destruct (lstrip (reverse s)) as [|a r] eqn:E.
  - cbn. now destruct (isspace c).
  - rewrite reverse_snoc. destruct (reverse (a :: r)) eqn:E2; [|reflexivity].
    apply (f_equal length) in E2. rewrite length_reverse in E2. discriminate.
Qed.

Lemma rstrip_nil : rstrip [] = [].
Proof. reflexivity. Qed.

Lemma lstrip_head (s : list N) :
  match lstrip s with [] => True | c :: _ => isspace c = false end.
Proof.
  induction s as [|a s IH]; cbn; [exact I|].
  destruct (isspace a) eqn:E; [exact IH | exact E].
Qed.

Lemma lstrip_fixed (s : list N) :
  match s with [] => True | c :: _ => isspace c = false end -> lstrip s = s.
Proof. destruct s as [|c s]; cbn; [reflexivity|]. now intros ->. Qed.

Lemma rstrip_keeps_head (c : N) (s : list N) :
  isspace c = false -> exists r, rstrip (c :: s) = c :: r.
Proof.
  intros Hc. rewrite rstrip_cons, Hc. destruct (rstrip s); now eexists.
Qed.

Lemma rstrip_idem (s : list N) : rstrip (rstrip s) = rstrip s.
Proof.
  induction s as [|c s IH]; [reflexivity|].
  rewrite rstrip_cons. destruct (rstrip s) as [|a r] eqn:E.
  - destruct (isspace c) eqn:Hc; [reflexivity|].
    unfold rstrip. cbn. now rewrite Hc.
  - rewrite rstrip_cons, IH. reflexivity.
Qed.

(** Trimming a trimmed string changes nothing. *)
Lemma strip_idem (s : list N) : strip (strip s) = strip s.
Proof.
  unfold strip. pose proof (lstrip_head s) as Hh.
  destruct (lstrip s) as [|c t]; [reflexivity|].
  destruct (rstrip_keeps_head c t Hh) as [r Hr]. rewrite Hr.
  rewrite (lstrip_fixed (c :: r) Hh), <- Hr. apply rstrip_idem.
Qed.

(** *** [str.lower] *)

Lemma assoc_In (c : N) (l : list (N * N)) (v : N) :
  assoc c l = Some v -> In (c, v) l.
Proof.
  induction l as [|[k w] l IH]; cbn [assoc]; [discriminate|].
  destruct (N.eqb_spec k c) as [->|_].
  - intros [= ->]. now left.
  - intros Hl. right. now apply IH.
Qed.

Lemma lower_fixed_spec (c : N) :
  lower_fixed c = true -> c <> 931%N /\ to_lower_full c = [c].
Proof.
  unfold lower_fixed, to_lower_full.
  destruct (N.eqb_spec c 931); [discriminate|].
  destruct (N.eqb_spec c 304); [discriminate|].
  now destruct (assoc c lower_pairs).
Qed.

Lemma lower_pairs_ok :
  forallb (fun p : N * N => lowered_ok [p.2]) lower_pairs = true.
Proof. vm_compute. reflexivity. Qed.

Lemma to_lower_full_ok (c : N) :
  c <> 931%N -> isspace c = false -> lowered_ok (to_lower_full c) = true.
Proof.
  intros Hsigma Hspace. unfold to_lower_full.
  destruct (N.eqb_spec c 304) as [->|Hdot]; [vm_compute; reflexivity|].
  destruct (assoc c lower_pairs) as [l|] eqn:Hl.
  - apply assoc_In in Hl. pose proof lower_pairs_ok as Hall.
    rewrite forallb_forall in Hall. exact (Hall _ Hl).
  - unfold lowered_ok, lower_fixed. cbn [forallb]. rewrite Hl, Hspace.
    destruct (N.eqb_spec c 931); [contradiction|].
    now destruct (N.eqb_spec c 304).
Qed.

Lemma isspace_spaces (c : N) : isspace c = true -> In c spaces.
Proof.
  unfold isspace. rewrite !orb_true_iff, !andb_true_iff, !N.leb_le, !N.eqb_eq.
  intros Hc. unfold spaces. cbn [In].
  destruct Hc as [[[[[[[[[[[H1 H2] | [H1 H2]] | ->] | ->] | ->] | [H1 H2]] | ->] | ->]
                    | ->] | ->] | ->];
    lia.
Qed.

(** A blank is left alone by [str.lower], and it is neither cased nor
    case-ignorable. *)
Lemma space_plain (c : N) :
  isspace c = true ->
  lower_fixed c = true /\ is_cased c = false /\ is_case_ignorable c = false.
Proof.
  intros Hc. apply isspace_spaces in Hc.
  assert (Hall : forallb (fun d => lower_fixed d && negb (is_cased d)
                                   && negb (is_case_ignorable d)) spaces = true)
    by (vm_compute; reflexivity).
  rewrite forallb_forall in Hall. specialize (Hall _ Hc).
  rewrite !andb_true_iff, !negb_true_iff in Hall. tauto.
Qed.

Lemma do_lower_cons (before : list N) (c : N) (rest : list N) :
  do_lower before (c :: rest) = lower_ucs4 before c rest ++ do_lower (c :: before) rest.
Proof. reflexivity. Qed.

Lemma lower_ucs4_ok (before : list N) (c : N) (after : list N) :
  isspace c = false -> lowered_ok (lower_ucs4 before c after) = true.
Proof.
  intros Hspace. unfold lower_ucs4. destruct (N.eqb_spec c 931) as [->|Hsigma].
  - unfold handle_capital_sigma.
    destruct (match skip_case_ignorable before with [] => false | c :: _ => is_cased c end);
      [destruct (match skip_case_ignorable after with [] => true | c :: _ => negb (is_cased c) end)|];
      vm_compute; reflexivity.
  - now apply to_lower_full_ok.
Qed.

Lemma lower_ucs4_space (before : list N) (c : N) (after : list N) :
  isspace c = true -> lower_ucs4 before c after = [c].
Proof.
  intros Hc. destruct (space_plain c Hc) as (Hfix & _).
  apply lower_fixed_spec in Hfix as [Hsigma Hfull].
  unfold lower_ucs4. now destruct (N.eqb_spec c 931).
Qed.

Lemma do_lower_fixed (s : list N) : forall before,
  forallb lower_fixed s = true -> do_lower before s = s.
Proof.
  induction s as [|c s IH]; intros before Hs; [reflexivity|].
  cbn [forallb] in Hs. apply andb_true_iff in Hs as [Hc Hs].
  apply lower_fixed_spec in Hc as [Hsigma Hfull].
  cbn [do_lower]. unfold lower_ucs4. destruct (N.eqb_spec c 931); [contradiction|].
  rewrite Hfull, (IH _ Hs). reflexivity.
Qed.

Lemma lowered_ok_fixed (l : list N) :
  lowered_ok l = true -> forallb lower_fixed l = true.
Proof.
  unfold lowered_ok. intros Hl. apply andb_true_iff in Hl as [_ Hl].
  rewrite forallb_forall in *. intros d Hd. specialize (Hl d Hd).
  now apply andb_true_iff in Hl as [Hl _].
Qed.

Lemma do_lower_is_fixed (s : list N) : forall before,
  forallb lower_fixed (do_lower before s) = true.
Proof.
  induction s as [|c s IH]; intros before; [reflexivity|].
  rewrite do_lower_cons, forallb_app, IH, andb_true_r.
  destruct (isspace c) eqn:Hc.
  - rewrite (lower_ucs4_space _ _ _ Hc). cbn [forallb]. rewrite andb_true_r.
    now destruct (space_plain c Hc).
  - apply lowered_ok_fixed. now apply lower_ucs4_ok.
Qed.

(** Lower-casing a lower-cased string changes nothing. *)
Lemma lower_idem (s : list N) : lower (lower s) = lower s.
Proof. unfold lower. apply do_lower_fixed, do_lower_is_fixed. Qed.

Lemma handle_capital_sigma_tests (before after : list N) :
  handle_capital_sigma before after
  = if prev_cased before && next_uncased after then 962%N else 963%N.
Proof.
  unfold handle_capital_sigma, prev_cased, next_uncased.
  now destruct (match skip_case_ignorable before with
                | [] => false | c :: _ => is_cased c end).
Qed.

Lemma prev_cased_cons (c : N) (before : list N) :
  prev_cased (c :: before)
  = if is_case_ignorable c then prev_cased before else is_cased c.
Proof. unfold prev_cased. cbn [skip_case_ignorable]. now destruct (is_case_ignorable c). Qed.

Lemma next_uncased_cons (c : N) (after : list N) :
  next_uncased (c :: after)
  = if is_case_ignorable c then next_uncased after else negb (is_cased c).
Proof. unfold next_uncased. cbn [skip_case_ignorable]. now destruct (is_case_ignorable c). Qed.

Lemma lower_ucs4_tests (b1 b2 : list N) (c : N) (a1 a2 : list N) :
  prev_cased b1 = prev_cased b2 -> next_uncased a1 = next_uncased a2 ->
  lower_ucs4 b1 c a1 = lower_ucs4 b2 c a2.
Proof.
  intros Hb Ha. unfold lower_ucs4. rewrite !handle_capital_sigma_tests.
  now rewrite Hb, Ha.
Qed.

Lemma do_lower_before (s : list N) : forall b1 b2,
  prev_cased b1 = prev_cased b2 -> do_lower b1 s = do_lower b2 s.
Proof.
  induction s as [|c s IH]; intros b1 b2 Hb; [reflexivity|].
  rewrite !do_lower_cons. f_equal.
  - now apply lower_ucs4_tests.
  - apply IH. rewrite !prev_cased_cons. now rewrite Hb.
Qed.

Lemma prev_cased_space (c : N) (before : list N) :
  isspace c = true -> prev_cased (c :: before) = false.
Proof.
  intros Hc. destruct (space_plain c Hc) as (_ & Hcased & Hign).
  now rewrite prev_cased_cons, Hign.
Qed.

Lemma next_uncased_space (c : N) (after : list N) :
  isspace c = true -> next_uncased (c :: after) = true.
Proof.
  intros Hc. destruct (space_plain c Hc) as (_ & Hcased & Hign).
  now rewrite next_uncased_cons, Hign, Hcased.
Qed.

Lemma lower_ucs4_head (before : list N) (c : N) (after : list N) :
  isspace c = false ->
  exists d l, lower_ucs4 before c after = d :: l /\ isspace d = false
              /\ forallb (fun x => negb (isspace x)) (d :: l) = true.
Proof.
  intros Hc. pose proof (lower_ucs4_ok before c after Hc) as Hok.
  unfold lowered_ok in Hok. destruct (lower_ucs4 before c after) as [|d l];
    [discriminate|].
  cbn [andb] in Hok. exists d, l. split; [reflexivity|].
  assert (Hall : forallb (fun x => negb (isspace x)) (d :: l) = true).
  { rewrite forallb_forall in *. intros x Hx. specialize (Hok x Hx).
    now apply andb_true_iff in Hok as [_ Hok]. }
  split; [|exact Hall]. cbn [forallb] in Hall.
  apply andb_true_iff in Hall as [Hd _]. now apply negb_true_iff in Hd.
Qed.

Lemma do_lower_lstrip (s : list N) : forall before,
  prev_cased before = false ->
  do_lower before (lstrip s) = lstrip (do_lower before s).
Proof.
  induction s as [|c s IH]; intros before Hb; [reflexivity|].
  rewrite do_lower_cons. cbn [lstrip]. destruct (isspace c) eqn:Hc.
  - rewrite (lower_ucs4_space _ _ _ Hc). cbn [app lstrip]. rewrite Hc.
    rewrite <- IH by now apply prev_cased_space.
    apply do_lower_before. rewrite Hb. symmetry. now apply prev_cased_space.
  - rewrite do_lower_cons.
    destruct (lower_ucs4_head before c s Hc) as (d & l & -> & Hd & _).
    cbn [app lstrip]. now rewrite Hd.
Qed.

Lemma rstrip_cons_nonspace (c : N) (s : list N) :
  isspace c = false -> rstrip (c :: s) = c :: rstrip s.
Proof. intros Hc. rewrite rstrip_cons, Hc. now destruct (rstrip s). Qed.

Lemma rstrip_app_nonspace (l z : list N) :
  forallb (fun x => negb (isspace x)) l = true ->
  rstrip (l ++ z) = l ++ rstrip z.
Proof.
  induction l as [|d l IH]; intros Hl; [reflexivity|].
  cbn [forallb] in Hl. apply andb_true_iff in Hl as [Hd Hl].
  apply negb_true_iff in Hd. cbn [app].
  now rewrite (rstrip_cons_nonspace _ _ Hd), IH.
Qed.

Lemma next_uncased_rstrip (s : list N) : next_uncased (rstrip s) = next_uncased s.
Proof.
  induction s as [|c s IH]; [reflexivity|].
  destruct (isspace c) eqn:Hc.
  - rewrite (next_uncased_space c s Hc), rstrip_cons, Hc.
    destruct (rstrip s); [reflexivity|]. now apply next_uncased_space.
  - rewrite (rstrip_cons_nonspace _ _ Hc), !next_uncased_cons. now rewrite IH.
Qed.

Lemma do_lower_nonempty (before : list N) (c : N) (s : list N) :
  do_lower before (c :: s) <> [].
Proof.
  rewrite do_lower_cons. destruct (isspace c) eqn:Hc.
  - now rewrite (lower_ucs4_space _ _ _ Hc).
  - now destruct (lower_ucs4_head before c s Hc) as (d & l & -> & _).
Qed.

Lemma do_lower_rstrip (s : list N) : forall before,
  do_lower before (rstrip s) = rstrip (do_lower before s).
Proof.
  induction s as [|c s IH]; intros before; [reflexivity|].
  rewrite (do_lower_cons before c s). destruct (isspace c) eqn:Hc.
  - rewrite (lower_ucs4_space _ _ _ Hc). cbn [app].
    rewrite !rstrip_cons, Hc, <- IH.
    destruct (rstrip s) as [|a r] eqn:Hr; [reflexivity|].
    rewrite do_lower_cons, (lower_ucs4_space _ _ _ Hc). cbn [app].
    pose proof (do_lower_nonempty (c :: before) a r) as Hne.
    now destruct (do_lower (c :: before) (a :: r)).
  - rewrite (rstrip_cons_nonspace _ _ Hc), do_lower_cons.
    destruct (lower_ucs4_head before c s Hc) as (d & l & Hl & _ & Hall).
    rewrite (lower_ucs4_tests before before c (rstrip s) s eq_refl
               (next_uncased_rstrip s)), Hl.
    now rewrite (rstrip_app_nonspace _ _ Hall), IH.
Qed.

Lemma lower_truthy (s : list N) : truthy (lower s) = truthy s.
Proof.
  destruct s as [|c s]; [reflexivity|]. unfold lower.
  pose proof (do_lower_nonempty [] c s) as Hne.
  now destruct (do_lower [] (c :: s)).
Qed.

(** Lower-casing and trimming commute. *)
Lemma lower_strip (s : list N) : lower (strip s) = strip (lower s).
Proof.
  unfold lower, strip. now rewrite do_lower_rstrip, do_lower_lstrip.
Qed.

(** The key looked up by the normalization functions is its own key. *)
Lemma normal_key_fixed (lang : str) :
  strip (lower (strip (lower lang))) = strip (lower lang).
Proof. now rewrite lower_strip, lower_idem, strip_idem. Qed.

(** ** Language codes, continued *)

Lemma google_values_fixed (k v : str) :
  google_mapping !! k = Some v -> normalize_language_code_for_google v = v.
Proof.
  unfold google_mapping. intros Hk. apply elem_of_list_to_map_2 in Hk.
  apply list_elem_of_In in Hk. revert Hk.
  match goal with
  | |- In _ ?L -> _ =>
      assert (Hall : forallb (fun p : str * str =>
                                str_eqb (normalize_language_code_for_google p.2) p.2)
                       L = true) by (vm_compute; reflexivity)
  end.
  intros Hk. rewrite forallb_forall in Hall. specialize (Hall _ Hk).
  now apply bool_decide_eq_true in Hall.
Qed.

Lemma api_values_fixed (k v : str) :
  api_mapping !! k = Some v -> normalize_language_code_for_api v = v.
Proof.
  unfold api_mapping. intros Hk. apply elem_of_list_to_map_2 in Hk.
  apply list_elem_of_In in Hk. revert Hk.
  match goal with
  | |- In _ ?L -> _ =>
      assert (Hall : forallb (fun p : str * str =>
                                str_eqb (normalize_language_code_for_api p.2) p.2)
                       L = true) by (vm_compute; reflexivity)
  end.
  intros Hk. rewrite forallb_forall in Hall. specialize (Hall _ Hk).
  now apply bool_decide_eq_true in Hall.
Qed.

(** X1: both normalization functions are idempotent: a code that has been
    normalized once is returned as it is when it is normalized again, as
    happens to the target language, normalized by the command line and
    again by the translation function. *)
Theorem normalize_idempotent (lang : str) :
  normalize_language_code_for_google (normalize_language_code_for_google lang)
  = normalize_language_code_for_google lang
  /\ normalize_language_code_for_api (normalize_language_code_for_api lang)
     = normalize_language_code_for_api lang.
Proof.
  split.
  - unfold normalize_language_code_for_google at 2 3.
    destruct (google_mapping !! strip (lower lang)) as [v|] eqn:Hk; cbn [default from_option id].
    + now apply google_values_fixed with (strip (lower lang)).
    + unfold normalize_language_code_for_google.
      now rewrite normal_key_fixed, Hk.
  - unfold normalize_language_code_for_api at 2 3.
    destruct (api_mapping !! strip (lower lang)) as [v|] eqn:Hk; cbn [default from_option id].
    + now apply api_values_fixed with (strip (lower lang)).
    + unfold normalize_language_code_for_api.
      now rewrite normal_key_fixed, Hk.
Qed.

(** X2: the Google-style code of a language does not change when the
    language is first normalized for the other APIs, as the command line
    does with the target language, for every identifier but those that
    read "hebrew" once lower-cased and trimmed: such a one becomes "he" on
    the way, which the Google table does not map, whereas normalized for
    Google directly it becomes "iw". *)
Theorem google_after_api (lang : str) :
  if str_eqb (strip (lower lang)) (lit "hebrew")
  then
    normalize_language_code_for_google (normalize_language_code_for_api lang)
    = lit "he"
    /\ normalize_language_code_for_google lang = lit "iw"
  else
    normalize_language_code_for_google (normalize_language_code_for_api lang)
    = normalize_language_code_for_google lang.
Proof.
  destruct (str_eqb (strip (lower lang)) (lit "hebrew")) eqn:Hne.
  - apply bool_decide_eq_true in Hne.
    unfold normalize_language_code_for_api, normalize_language_code_for_google at 2.
    rewrite Hne. split; vm_compute; reflexivity.
  - unfold normalize_language_code_for_api.
    destruct (api_mapping !! strip (lower lang)) as [v|] eqn:Hk;
      cbn [default from_option id].
    + unfold api_mapping in Hk. apply elem_of_list_to_map_2 in Hk.
      apply list_elem_of_In in Hk. revert Hk.
      match goal with
      | |- In _ ?L -> _ =>
          assert (Hall : forallb (fun p : str * str =>
                     str_eqb p.1 (lit "hebrew")
                     || str_eqb (normalize_language_code_for_google p.2)
                          (default p.1 (google_mapping !! p.1)))
                    L = true) by (vm_compute; reflexivity)
      end.
      intros Hk. rewrite forallb_forall in Hall. specialize (Hall _ Hk).
      cbn [fst snd] in Hall. rewrite Hne in Hall. cbn [orb] in Hall.
      now apply bool_decide_eq_true in Hall.
    + unfold normalize_language_code_for_google. now rewrite normal_key_fixed.
Qed.

Example hebrew_code_differs :
  normalize_language_code_for_google (normalize_language_code_for_api (lit "Hebrew"))
  = lit "he"
  /\ normalize_language_code_for_google (lit "Hebrew") = lit "iw".
Proof. split; vm_compute; reflexivity. Qed.

(** ** post_process_segments *)

Lemma post_process_loop_slots segments : forall last,
  Forall2 (fun seg out =>
             out = seg
             \/ (out = set_text seg [] /\ is_blank (text seg) = false))
    segments (post_process_loop segments last).
Proof.
  induction segments as [|seg rest IH]; intros last; cbn [post_process_loop];
    [constructor|].
  destruct (truthy (strip (text seg))) eqn:Ht; cbn [negb].
  - destruct (bool_decide _); constructor; auto.
    right. split; [reflexivity|]. unfold is_blank. now rewrite Ht.
  - constructor; auto.
Qed.

(** X3: post-processing keeps the number and the order of the segments,
    with their times and speakers: each output segment is the input segment
    at the same place, or that segment with its text emptied, and only a
    segment with text can be emptied. *)
Theorem post_process_segments_slots (segments : list Segment) :
  length (post_process_segments segments) = length segments
  /\ Forall2 (fun seg out =>
                same_slot seg out
                /\ (out = seg
                    \/ (text out = [] /\ is_blank (text seg) = false)))
       segments (post_process_segments segments).
Proof.
  pose proof (post_process_loop_slots segments None) as Hs.
  split; [symmetry; exact (Forall2_length _ _ _ Hs)|].
  eapply Forall2_impl; [exact Hs|]. intros seg out [->|[-> Hb]].
  - repeat split. now left.
  - repeat split. right. now split.
Qed.

Lemma spoken_texts_cons seg rest :
  spoken_texts (seg :: rest)
  = if truthy (strip (text seg)) then strip (text seg) :: spoken_texts rest
    else spoken_texts rest.
Proof. reflexivity. Qed.

Lemma post_process_loop_no_repeat segments : forall last,
  no_repeat (spoken_texts (post_process_loop segments last))
  /\ forall x, last = Some x ->
       head (spoken_texts (post_process_loop segments last)) <> Some x.
Proof.
  induction segments as [|seg rest IH]; intros last; cbn [post_process_loop].
  - split; [exact I | intros x _; discriminate].
  - destruct (truthy (strip (text seg))) eqn:Ht; cbn [negb].
    + destruct (bool_decide_reflect (last = Some (strip (text seg)))) as [Hl|Hl].
      * rewrite spoken_texts_cons. cbn. apply IH.
      * rewrite spoken_texts_cons, Ht.
        destruct (IH (Some (strip (text seg)))) as [Hn Hh]. split.
        -- specialize (Hh _ eq_refl).
           destruct (spoken_texts (post_process_loop rest _)) as [|b l];
             [exact I|]. split; [|exact Hn]. cbn in Hh. congruence.
        -- intros x -> [= E]. apply Hl. now rewrite E.
    + rewrite spoken_texts_cons, Ht. apply IH.
Qed.

(** X4: after post-processing no two segments with text that follow each
    other, segments without text between them left aside, have the same
    trimmed text. *)
Theorem post_process_segments_no_repeat (segments : list Segment) :
  no_repeat (spoken_texts (post_process_segments segments)).
Proof. apply post_process_loop_no_repeat. Qed.

Lemma post_process_loop_idem segments : forall last,
  post_process_loop (post_process_loop segments last) last
  = post_process_loop segments last.
Proof.
  induction segments as [|seg rest IH]; intros last; cbn [post_process_loop];
    [reflexivity|].
  destruct (truthy (strip (text seg))) eqn:Ht; cbn [negb].
  - destruct (bool_decide (last = Some (strip (text seg)))) eqn:Hl.
    + cbn [post_process_loop]. cbn. now rewrite IH.
    + cbn [post_process_loop]. rewrite Ht, Hl. cbn [negb]. now rewrite IH.
  - cbn [post_process_loop]. rewrite Ht. cbn [negb]. now rewrite IH.
Qed.

(** X5: post-processing is idempotent: a list that has been post-processed
    is left as it is by a second pass. *)
Theorem post_process_segments_idempotent (segments : list Segment) :
  post_process_segments (post_process_segments segments)
  = post_process_segments segments.
Proof. apply post_process_loop_idem. Qed.

(** ** group_overlapping_segments: what the groups look like *)

Lemma group_end_snoc group seg m :
  group_end group = Some m ->
  group_end (group ++ [seg]) = Some (float_max m (end_ seg)).
Proof.
  destruct group as [|c rest]; [discriminate|]. cbn [group_end app].
  intros [= <-]. now rewrite fmap_app, fold_left_app.
Qed.

Lemma chained_single seg : chained [seg].
Proof.
  intros pre s post Heq Hpre. destruct pre as [|a pre]; [congruence|].
  destruct pre; discriminate.
Qed.

Lemma chained_snoc group seg m :
  chained group -> group <> [] -> group_end group = Some m ->
  PrimFloat.ltb (start seg) m = true ->
  chained (group ++ [seg]).
Proof.
  intros Hc Hne Hm Hlt pre s post Heq Hpre.
  destruct post as [|x post _] using rev_ind.
  - apply app_inj_tail in Heq as [-> ->]. now exists m.
  - rewrite app_comm_cons, app_assoc in Heq.
    apply app_inj_tail in Heq as [Heq _]. now apply (Hc pre s post).
Qed.

Lemma separated_grow groups c rest seg :
  separated (groups ++ [c :: rest]) ->
  separated (groups ++ [(c :: rest) ++ [seg]]).
Proof.
  intros Hs k g s r Hg Hn.
  destruct (decide (S k < length groups)) as [Hlt|Hge].
  - apply (Hs k g s r).
    + rewrite lookup_app_l by lia. now rewrite lookup_app_l in Hg by lia.
    + rewrite lookup_app_l by lia. now rewrite lookup_app_l in Hn by lia.
  - destruct (decide (S k = length groups)) as [Heq|Hne].
    + rewrite lookup_app_l in Hg by lia.
      rewrite lookup_app_r in Hn by lia.
      replace (S k - length groups) with 0 in Hn by lia.
      cbn in Hn. injection Hn as <- _.
      apply (Hs k g c rest).
      * now rewrite lookup_app_l by lia.
      * rewrite lookup_app_r by lia.
        now replace (S k - length groups) with 0 by lia.
    + apply lookup_lt_Some in Hn. rewrite length_app in Hn. cbn in Hn. lia.
Qed.

Lemma separated_new groups group seg m :
  separated (groups ++ [group]) ->
  group_end group = Some m ->
  PrimFloat.ltb (start seg) m = false ->
  separated ((groups ++ [group]) ++ [[seg]]).
Proof.
  intros Hs Hm Hlt k g s r Hg Hn.
  destruct (decide (S k < length (groups ++ [group]))) as [Hlt'|Hge].
  - apply (Hs k g s r).
    + now rewrite lookup_app_l in Hg by lia.
    + now rewrite lookup_app_l in Hn by lia.
  - destruct (decide (S k = length (groups ++ [group]))) as [Heq|Hne].
    + rewrite lookup_app_r in Hn by lia.
      replace (S k - length (groups ++ [group])) with 0 in Hn by lia.
      cbn in Hn. injection Hn as <- _.
      rewrite lookup_app_l in Hg by lia.
      rewrite length_app in Heq. cbn in Heq.
      rewrite lookup_app_r in Hg by lia.
      replace (k - length groups) with 0 in Hg by lia.
      cbn in Hg. injection Hg as <-. now exists m.
    + apply lookup_lt_Some in Hn. rewrite length_app in Hn. cbn in Hn. lia.
Qed.

Lemma group_loop_shape segments : forall groups c rest current_end,
  group_end (c :: rest) = Some current_end ->
  Forall chained (groups ++ [c :: rest]) ->
  separated (groups ++ [c :: rest]) ->
  Forall chained (group_loop segments groups (c :: rest) current_end)
  /\ separated (group_loop segments groups (c :: rest) current_end).
Proof.
  induction segments as [|seg segments IH]; intros groups c rest ce Hend Hc Hs;
    cbn [group_loop]; [now split|].
  apply Forall_app in Hc as [Hgs Hcur]. apply Forall_inv in Hcur.
  destruct (PrimFloat.ltb (start seg) ce) eqn:Hlt.
  - apply (IH groups c (rest ++ [seg])).
    + exact (group_end_snoc (c :: rest) seg ce Hend).
    + apply Forall_app. split; [exact Hgs|]. apply Forall_singleton.
      now apply (chained_snoc (c :: rest) seg ce).
    + now apply separated_grow.
  - apply (IH (groups ++ [c :: rest]) seg []).
    + reflexivity.
    + apply Forall_app. split.
      * apply Forall_app. split; [exact Hgs|]. now apply Forall_singleton.
      * apply Forall_singleton, chained_single.
    + now apply separated_new with ce.
Qed.

(** X6: in the groups that the grouping step returns, every segment but the
    first of its group starts before the greatest end among the members
    that precede it in the group, and the first segment of every group but
    the first does not start before the greatest end of the whole group
    before it, which is the end time that the renderers print for that
    group. *)
Theorem group_overlapping_segments_shape (segments : list Segment) :
  Forall chained (group_overlapping_segments segments)
  /\ separated (group_overlapping_segments segments).
Proof.
  unfold group_overlapping_segments. destruct segments as [|seg segments].
  - split; [constructor|]. intros k g s r Hg. discriminate.
  - cbn [group_loop]. apply (group_loop_shape segments [] seg []).
    + reflexivity.
    + apply Forall_singleton, chained_single.
    + intros k g s r Hg Hn. destruct k; discriminate.
Qed.

(** ** Further runs in the monad *)

Section MoreRuns.
Context `{Capabilities}.


Lemma requests_made_app evs1 evs2 :
  requests_made (evs1 ++ evs2) = requests_made evs1 + requests_made evs2.
Proof. unfold requests_made. now rewrite List.filter_app, length_app. Qed.



Lemma call_translate_run text src dest w :
  call_translate text src dest w
  = ((translate_func text src dest w).1, (translate_func text src dest w).2,
     [Translate text src dest]).
Proof. unfold call_translate. now destruct (translate_func text src dest w). Qed.

(** *** [chat_llm]: bounded retries *)




(** *** CorrectionStage *)

Lemma set_text_same seg : set_text seg (text seg) = seg.
Proof. now destruct seg. Qed.

Lemma stripped_not_blank (s : list N) :
  s <> [] -> strip s = s -> is_blank s = false.
Proof. intros Hne Hs. unfold is_blank. rewrite Hs. now destruct s. Qed.

Lemma correct_segment_result segments context_range i seg w :
  result (correct_segment segments context_range i seg w)
  = if is_blank (text seg) then seg
    else
      match result (chat_llm (CorrectionPrompt
                                (previous_context segments context_range i)
                                (next_context segments context_range i)
                                (text seg)) w) with
      | Returned answer => set_text seg (if truthy answer then answer else text seg)
      | Raised => seg
      end.
Proof.
  unfold correct_segment. destruct (is_blank (text seg)); [reflexivity|].
  rewrite result_bind. destruct (result (chat_llm _ w)); [reflexivity|].
  unfold result, ret. cbn [fst].
  destruct (truthy (text seg)); apply set_text_same.
Qed.




Lemma chat_llm_backend_down p w :
  (forall p' w', (backend_chat p' w').1 = None) ->
  result (chat_llm p w) = Returned [] \/ result (chat_llm p w) = Raised.
Proof.
  intros Hdown. rewrite chat_llm_run. destruct (backend_open w).1; [|now right].
  left. unfold result at 1. cbn [fst]. f_equal.
  now apply chat_retry_backend_down.
Qed.

Lemma correct_loop_backend_down segments context_range rest :
  (forall p' w', (backend_chat p' w').1 = None) ->
  forall i w, result (correct_loop segments context_range i rest w) = rest.
Proof.
  intros Hdown. induction rest as [|seg rest IH]; intros i w;
    cbn [correct_loop]; [reflexivity|].
  rewrite result_bind, result_bind. unfold result at 1, ret. cbn [fst].
  rewrite IH. f_equal. rewrite correct_segment_result.
  destruct (is_blank (text seg)); [reflexivity|].
  destruct (chat_llm_backend_down
              (CorrectionPrompt (previous_context segments context_range i)
                 (next_context segments context_range i) (text seg)) w Hdown)
    as [-> | ->]; [apply set_text_same | reflexivity].
Qed.

(** X9: when every request to the backend fails, the correction stage
    returns its input unchanged. *)
Theorem llm_correct_segments_backend_down
    (segments : list Segment) (context_range : nat) (w : World) :
  (forall p' w', (backend_chat p' w').1 = None) ->
  result (llm_correct_segments segments context_range w) = segments.
Proof.
  intros Hdown. unfold llm_correct_segments. destruct segments as [|seg rest].
  - reflexivity.
  - now apply correct_loop_backend_down.
Qed.

(** *** MergeStage: what the loop does to the list *)

Lemma take_drop_pair {A} (l : list A) i a b :
  l !! i = Some a -> l !! (i + 1) = Some b ->
  l = take i l ++ a :: b :: drop (i + 2) l.
Proof.
  intros Ha Hb. rewrite <- (take_drop i l) at 1. f_equal.
  rewrite (drop_S l a i Ha). f_equal.
  replace (S i) with (i + 1) by lia.
  rewrite (drop_S l b (i + 1) Hb). do 2 f_equal. lia.
Qed.

Lemma merge_step_cases i segments w :
  S i < length segments ->
  let '(i', segments') := result (merge_step i segments w) in
  length segments' - i' = length segments - S i
  /\ ((i' = i + 1 /\ segments' = segments)
      \/ exists pre seg1 seg2 post,
           segments = pre ++ seg1 :: seg2 :: post
           /\ may_merge seg1 seg2 = true
           /\ segments' = pre ++ merged_segment seg1 seg2 :: post).
Proof.
  intros Hi. pose proof (merge_step_measure i segments w Hi) as [Hm _].
  revert Hm. unfold merge_step.
  destruct (lookup_lt_is_Some_2 segments i) as [seg1 H1]; [lia|].
  destruct (lookup_lt_is_Some_2 segments (i + 1)) as [seg2 H2]; [lia|].
  rewrite H1, H2.
  destruct (is_blank (text seg1) || is_blank (text seg2)) eqn:Hb;
    [unfold result, ret; cbn [fst snd]; intros Hm; split; [exact Hm | now left]|].
  destruct (PrimFloat.ltb _ _) eqn:Hcap;
    [unfold result, ret; cbn [fst snd]; intros Hm; split; [exact Hm | now left]|].
  rewrite result_bind. destruct (result (should_merge seg1 seg2 w));
    unfold result, ret; cbn [fst snd]; intros Hm;
    (split; [exact Hm|]); [|now left].
  right. exists (take i segments), seg1, seg2, (drop (i + 2) segments).
  split; [now apply take_drop_pair|]. split.
  - unfold may_merge. now rewrite Hb, Hcap.
  - apply delete_insert_splice. now apply lookup_lt_Some in H2.
Qed.

Lemma merge_loop_merges fuel : forall i segments w,
  length segments - i <= S fuel ->
  exists merged,
    result (merge_loop fuel i segments w) = Some merged
    /\ merges_to segments merged.
Proof.
  induction fuel as [|fuel IH]; intros i segments w Hfuel; cbn [merge_loop];
    destruct (S i <? length segments) eqn:Hguard;
    try (exists segments; split; [reflexivity | constructor]).
  - apply Nat.ltb_lt in Hguard. lia.
  - apply Nat.ltb_lt in Hguard. rewrite result_bind.
    pose proof (merge_step_cases i segments w Hguard) as Hstep.
    destruct (result (merge_step i segments w)) as [i' segments'].
    destruct Hstep as [Hm Hcase].
    destruct (IH i' segments' (merge_step i segments w).1.2) as (merged & -> & Hl);
      [lia|].
    exists merged. split; [reflexivity|].
    destruct Hcase as [[_ ->]|(pre & seg1 & seg2 & post & -> & Hok & ->)];
      [exact Hl|].
    now apply merges_pair.
Qed.

Lemma merge_stage_run segments w :
  exists merged,
    result (llm_merge_segments segments w) = Some merged
    /\ merges_to segments merged.
Proof.
  unfold llm_merge_segments. destruct segments as [|seg rest].
  - exists []. split; [reflexivity | constructor].
  - apply merge_loop_merges. lia.
Qed.

(** X10: the merge stage always comes to an end, and what it returns is its
    input in which, any number of times, two neighbours that both have text
    and together fit in four seconds have been replaced by their merge;
    nothing else is changed, dropped or reordered. *)
Theorem llm_merge_segments_merges (segments : list Segment) (w : World) :
  exists merged,
    result (llm_merge_segments segments w) = Some merged
    /\ merges_to segments merged.
Proof. apply merge_stage_run. Qed.

Lemma join_cons_more sep (p q : list N) (l : list (list N)) :
  join sep (p :: q :: l) = p ++ sep ++ join sep (q :: l).
Proof. reflexivity. Qed.

Lemma join_merge_pair sep (a b : list N) : forall pre post,
  join sep (pre ++ (a ++ sep ++ b) :: post) = join sep (pre ++ a :: b :: post).
Proof.
  induction pre as [|p pre IH]; intros post.
  - cbn [app]. destruct post as [|c post].
    + reflexivity.
    + rewrite !join_cons_more. now rewrite <- !app_assoc.
  - destruct pre as [|q pre].
    + cbn [app] in *. rewrite !join_cons_more. now rewrite IH.
    + cbn [app] in *. rewrite !join_cons_more. now rewrite IH.
Qed.

Lemma strip_head_nonspace (a : list N) :
  strip a = a -> a <> [] ->
  match a with [] => True | c :: _ => isspace c = false end.
Proof.
  unfold strip. intros Ha Hne. pose proof (lstrip_head a) as Hh.
  destruct (lstrip a) as [|c t].
  - cbn in Ha. congruence.
  - destruct (rstrip_keeps_head c t Hh) as [r Hr]. rewrite Hr in Ha.
    now subst a.
Qed.

Lemma rstrip_of_stripped (b : list N) : strip b = b -> rstrip b = b.
Proof. unfold strip. intros Hb. rewrite <- Hb at 1. rewrite rstrip_idem. exact Hb. Qed.

Lemma rstrip_app_fixed (b : list N) :
  rstrip b = b -> b <> [] -> forall x, rstrip (x ++ b) = x ++ b.
Proof.
  intros Hb Hne. induction x as [|c x IH]; [exact Hb|].
  cbn [app]. rewrite rstrip_cons, IH. destruct (x ++ b) eqn:E; [|reflexivity].
  now apply app_eq_nil in E as [_ ->].
Qed.

Lemma strip_joined (a b : list N) :
  strip a = a -> a <> [] -> strip b = b -> b <> [] ->
  strip (a ++ lit " " ++ b) = a ++ lit " " ++ b.
Proof.
  intros Ha Hna Hb Hnb. unfold strip.
  rewrite lstrip_fixed.
  - rewrite (app_assoc a). apply rstrip_app_fixed; [|exact Hnb].
    now apply rstrip_of_stripped.
  - pose proof (strip_head_nonspace a Ha Hna) as Hh.
    destruct a; [congruence | exact Hh].
Qed.

Lemma not_blank_strip (s : list N) : is_blank s = false -> strip s <> [].
Proof. unfold is_blank. now destruct (strip s). Qed.

Lemma may_merge_texts seg1 seg2 :
  may_merge seg1 seg2 = true ->
  is_blank (text seg1) = false /\ is_blank (text seg2) = false
  /\ within_cap (merged_segment seg1 seg2).
Proof.
  unfold may_merge, within_cap. cbn [merged_segment start end_].
  destruct (is_blank (text seg1)), (is_blank (text seg2)); cbn; try discriminate.
  now destruct (PrimFloat.ltb _ _).
Qed.

Lemma merged_segment_text seg1 seg2 :
  may_merge seg1 seg2 = true ->
  strip (text (merged_segment seg1 seg2))
  = strip (text seg1) ++ lit " " ++ strip (text seg2).
Proof.
  intros Hok. destruct (may_merge_texts _ _ Hok) as (H1 & H2 & _).
  cbn [merged_segment text].
  apply strip_joined; auto using strip_idem, not_blank_strip.
Qed.

Lemma merges_to_text segments merged :
  merges_to segments merged ->
  join (lit " ") ((fun seg => strip (text seg)) <$> merged)
  = join (lit " ") ((fun seg => strip (text seg)) <$> segments).
Proof.
  induction 1 as [|pre seg1 seg2 post merged Hok _ IH]; [reflexivity|].
  rewrite IH, !fmap_app, !fmap_cons, (merged_segment_text _ _ Hok).
  apply join_merge_pair.
Qed.

(** X11: merging loses no text: the trimmed texts of the segments, joined
    by single spaces, read the same after the merge stage as before. *)
Theorem llm_merge_segments_keeps_text (segments : list Segment) (w : World) :
  exists merged,
    result (llm_merge_segments segments w) = Some merged
    /\ join (lit " ") ((fun seg => strip (text seg)) <$> merged)
       = join (lit " ") ((fun seg => strip (text seg)) <$> segments).
Proof.
  destruct (merge_stage_run segments w) as (merged & Hr & Hm).
  exists merged. split; [exact Hr | now apply merges_to_text].
Qed.

Lemma merges_to_times segments merged :
  merges_to segments merged ->
  sublist (start <$> merged) (start <$> segments)
  /\ sublist (end_ <$> merged) (end_ <$> segments)
  /\ sublist (speaker <$> merged) (speaker <$> segments)
  /\ head (start <$> merged) = head (start <$> segments)
  /\ last (end_ <$> merged) = last (end_ <$> segments).
Proof.
  induction 1 as [|pre seg1 seg2 post merged Hok _ IH]; [easy|].
  destruct IH as (Hs & He & Hp & Hh & Hl).
  rewrite !fmap_app, !fmap_cons in *. cbn [merged_segment start end_ speaker] in *.
  repeat split.
  - etransitivity; [exact Hs|]. apply sublist_app; [reflexivity|].
    apply sublist_skip, sublist_cons. reflexivity.
  - etransitivity; [exact He|]. apply sublist_app; [reflexivity|].
    apply sublist_cons. reflexivity.
  - etransitivity; [exact Hp|]. apply sublist_app; [reflexivity|].
    apply sublist_skip, sublist_cons. reflexivity.
  - rewrite Hh. now destruct pre.
  - rewrite Hl. rewrite !last_app. cbn [last].
    rewrite !last_cons. now destruct (last (end_ <$> post)).
Qed.

(** X12: the merge stage invents no time and no speaker: the start times of
    its output are start times of its input, in the same order, and so are
    the end times and the speakers; the output begins when the input begins
    and ends when it ends. *)
Theorem llm_merge_segments_times (segments : list Segment) (w : World) :
  exists merged,
    result (llm_merge_segments segments w) = Some merged
    /\ sublist (start <$> merged) (start <$> segments)
    /\ sublist (end_ <$> merged) (end_ <$> segments)
    /\ sublist (speaker <$> merged) (speaker <$> segments)
    /\ head (start <$> merged) = head (start <$> segments)
    /\ last (end_ <$> merged) = last (end_ <$> segments).
Proof.
  destruct (merge_stage_run segments w) as (merged & Hr & Hm).
  exists merged. split; [exact Hr | now apply merges_to_times].
Qed.

Lemma merges_to_cap (original : list Segment) segments merged :
  merges_to segments merged ->
  Forall (fun seg => seg ∈ original \/ (within_cap seg /\ is_blank (text seg) = false))
    segments ->
  Forall (fun seg => seg ∈ original \/ (within_cap seg /\ is_blank (text seg) = false))
    merged.
Proof.
  induction 1 as [|pre seg1 seg2 post merged Hok _ IH]; [easy|].
  intros Hall. apply IH.
  apply Forall_app in Hall as [Hpre Hrest].
  apply Forall_cons in Hrest as [_ Hrest]. apply Forall_cons in Hrest as [_ Hpost].
  apply Forall_app. split; [exact Hpre|]. constructor; [|exact Hpost].
  right. destruct (may_merge_texts _ _ Hok) as (H1 & H2 & Hcap).
  split; [exact Hcap|]. apply stripped_not_blank.
  - cbn [merged_segment text]. pose proof (not_blank_strip _ H1).
    destruct (strip (text seg1)); [congruence | discriminate].
  - exact (merged_segment_text _ _ Hok).
Qed.

(** X13: every segment that the merge stage returns is one of its input
    segments or a merged segment, and a merged segment has text and does
    not last more than four seconds. *)
Theorem llm_merge_segments_cap (segments : list Segment) (w : World) :
  exists merged,
    result (llm_merge_segments segments w) = Some merged
    /\ Forall (fun seg =>
                 seg ∈ segments
                 \/ (within_cap seg /\ is_blank (text seg) = false))
         merged.
Proof.
  destruct (merge_stage_run segments w) as (merged & Hr & Hm).
  exists merged. split; [exact Hr|].
  apply (merges_to_cap segments segments merged Hm).
  apply Forall_forall. intros seg Hin. now left.
Qed.

Lemma merge_step_blocked i segments w seg1 seg2 :
  segments !! i = Some seg1 -> segments !! (i + 1) = Some seg2 ->
  may_merge seg1 seg2 = false ->
  merge_step i segments w = ((i + 1, segments), w, []).
Proof.
  intros H1 H2 Hno. unfold merge_step. rewrite H1, H2.
  unfold may_merge in Hno.
  destruct (is_blank (text seg1) || is_blank (text seg2)); [reflexivity|].
  cbn in Hno. apply negb_false_iff in Hno. now rewrite Hno.
Qed.

Lemma merge_loop_blocked segments :
  (forall i seg1 seg2,
     segments !! i = Some seg1 -> segments !! (i + 1) = Some seg2 ->
     may_merge seg1 seg2 = false) ->
  forall fuel i w,
    length segments - i <= S fuel ->
    merge_loop fuel i segments w = (Some segments, w, []).
Proof.
  intros Hno. induction fuel as [|fuel IH]; intros i w Hfuel; cbn [merge_loop];
    destruct (S i <? length segments) eqn:Hguard; try reflexivity.
  - apply Nat.ltb_lt in Hguard. lia.
  - apply Nat.ltb_lt in Hguard.
    destruct (lookup_lt_is_Some_2 segments i) as [seg1 H1]; [lia|].
    destruct (lookup_lt_is_Some_2 segments (i + 1)) as [seg2 H2]; [lia|].
    unfold bind.
    rewrite (merge_step_blocked i segments w seg1 seg2 H1 H2 (Hno _ _ _ H1 H2)).
    now rewrite IH by lia.
Qed.

(** X14: when no two neighbours pass the test (one of them has no text, or
    together they last more than four seconds), the merge stage returns its
    input unchanged and sends no request to the model. *)
Theorem llm_merge_segments_blocked (segments : list Segment) (w : World) :
  (forall i seg1 seg2,
     segments !! i = Some seg1 -> segments !! (i + 1) = Some seg2 ->
     may_merge seg1 seg2 = false) ->
  result (llm_merge_segments segments w) = Some segments
  /\ events (llm_merge_segments segments w) = [].
Proof.
  intros Hno. unfold llm_merge_segments. destruct segments as [|seg rest].
  - now split.
  - now rewrite (merge_loop_blocked _ Hno) by lia.
Qed.

(** *** TranslationStage: the synchronous branch and the number of calls *)















Lemma translate_task_text is_async src dest seg w s :
  (translate_func (text seg) src dest w).1 = Some (VStr s) ->
  translate_task is_async src dest seg w
  = (VStr s, (translate_func (text seg) src dest w).2,
     [Translate (text seg) src dest]).
Proof.
  intros Hs. unfold translate_task. destruct is_async.
  - unfold sem_translate. cbn [sem_translate_loop]. unfold bind.
    now rewrite call_translate_run, Hs.
  - unfold sync_translate. cbn [sync_translate_loop]. unfold bind.
    now rewrite call_translate_run, Hs.
Qed.

Lemma tasks_without_failures segments src dest is_async :
  (forall text w', exists s, (translate_func text src dest w').1 = Some (VStr s)) ->
  forall w,
    events (mapM (translate_task is_async src dest) segments w)
    = (fun seg => Translate (text seg) src dest) <$> segments.
Proof.
  intros Hok.
  induction segments as [|seg segments IH]; intros w; [reflexivity|].
  cbn [mapM]. rewrite events_bind, events_bind.
  destruct (Hok (text seg) w) as [s Hs].
  rewrite (translate_task_text is_async src dest seg w s Hs).
  unfold events at 1, result at 1. cbn [fst snd]. rewrite IH.
  cbn. now rewrite app_nil_r.
Qed.

(** X17: with a translation function that always returns text, each mode
    of the translation stage calls it exactly once per segment, in the
    order of the segments, and never sleeps. *)
Theorem translation_without_failures
    (segments : list Segment) (src dest : str) (is_async : bool) (w : World) :
  (forall text w', exists s, (translate_func text src dest w').1 = Some (VStr s)) ->
  events (basic_translate_segments segments src dest is_async w)
  = (fun seg => Translate (text seg) src dest) <$> segments.
Proof.
  intros Hok. rewrite basic_translate_segments_tasks.
  now apply tasks_without_failures.
Qed.


(** *** OptimizationStage: pass-through, degradation, the caller's list *)

Lemma optimize_step_none segments use_llm cr dest i bt w :
  bt !! i = None ->
  optimize_step segments use_llm cr dest i bt w = (None, w, []).
Proof.
  intros Hnone. unfold optimize_step. rewrite Hnone.
  now destruct (segments !! i).
Qed.

Lemma optimize_step_off segments cr dest i bt w :
  exists r, optimize_step segments false cr dest i bt w = (r, w, []).
Proof.
  unfold optimize_step.
  destruct (segments !! i), (bt !! i); now eexists.
Qed.

Lemma optimize_loop_off segments cr dest indices : forall bt w,
  exists r, optimize_loop segments false cr dest indices bt w = (r, w, []).
Proof.
  induction indices as [|i indices IH]; intros bt w; cbn [optimize_loop].
  - now eexists.
  - unfold bind. destruct (optimize_step_off segments cr dest i bt w) as [r ->].
    destruct r as [[fseg bt1]|]; [|now eexists].
    destruct (IH bt1 w) as [r' ->]. now eexists.
Qed.

Lemma chat_llm_returns_nothing p w :
  (forall p' w', (backend_chat p' w').1 = None) ->
  (backend_open w).1 = true ->
  result (chat_llm p w) = Returned [].
Proof.
  intros Hdown Hopen. rewrite chat_llm_run, Hopen. unfold result at 1.
  cbn [fst]. f_equal. now apply chat_retry_backend_down.
Qed.

Lemma optimize_translation_backend_down original basic context_text dest w :
  (forall p' w', (backend_chat p' w').1 = None) ->
  (backend_open w).1 = true ->
  result (optimize_translation original basic context_text dest w) = Some basic.
Proof.
  intros Hdown Hopen. unfold optimize_translation.
  now rewrite result_bind, (chat_llm_returns_nothing _ _ Hdown Hopen).
Qed.

Lemma optimize_step_backend_down segments cr dest i bt w seg basic :
  (forall p' w', (backend_chat p' w').1 = None) ->
  (backend_open w).1 = true ->
  segments !! i = Some seg -> bt !! i = Some basic ->
  result (optimize_step segments true cr dest i bt w)
  = Some (set_text seg basic, bt).
Proof.
  intros Hdown Hopen Hseg Hbasic. unfold optimize_step. rewrite Hseg, Hbasic.
  rewrite result_bind, (optimize_translation_backend_down _ _ _ _ _ Hdown Hopen).
  unfold str_eqb. rewrite bool_decide_eq_true_2 by reflexivity.
  rewrite result_bind. unfold result, ret. cbn [fst].
  now rewrite (list_insert_id _ _ _ Hbasic).
Qed.

Lemma optimize_loop_keeps_buffer segments use_llm cr dest :
  (forall i bt w fseg bt',
     result (optimize_step segments use_llm cr dest i bt w) = Some (fseg, bt') ->
     bt' = bt) ->
  forall indices bt w fs buf,
    result (optimize_loop segments use_llm cr dest indices bt w) = Some (fs, buf) ->
    buf = bt.
Proof.
  intros Hkeep. induction indices as [|i indices IH]; intros bt w fs buf.
  - cbn. now intros [= _ <-].
  - destruct (optimize_step segments use_llm cr dest i bt w)
      as [[[[fseg bt1]|] w1] e1] eqn:Hs.
    + rewrite (optimize_loop_cons _ _ _ _ _ _ _ _ _ _ _ _ Hs).
      assert (bt1 = bt) as -> by (apply (Hkeep i bt w fseg); now rewrite Hs).
      destruct (optimize_loop segments use_llm cr dest indices bt w1)
        as [[[[fs' b]|] w2] e2] eqn:Hl; unfold result; cbn [fst];
        [|discriminate].
      intros [= _ <-]. apply (IH bt w1 fs'). now rewrite Hl.
    + cbn [optimize_loop]. unfold bind. rewrite Hs. discriminate.
Qed.

(** X18: without [use_llm] the optimization stage is a pass-through: it
    sends no request, leaves [basic_translations] as it is, and returns the
    input segments with the basic translations as their texts. *)
Theorem optimize_without_llm
    (segments : list Segment) (bt : list str) (context_range : nat)
    (dest_language : str) (w : World) :
  length segments <= length bt ->
  exists final,
    optimize_translations_with_context segments bt false context_range
      dest_language w
    = (Some (final, bt), w, [])
    /\ Forall2 same_slot segments final
    /\ text <$> final = take (length segments) bt.
Proof.
  intros Hlen. unfold optimize_translations_with_context.
  destruct (optimize_loop_prefix segments false context_range dest_language bt w
              (fun E : false = true => False_rect _ (Bool.diff_false_true E))
              Hlen (length segments))
    as (fs & buf & w' & evs & Hrun & Hslots & _ & Htake & _); [lia|].
  destruct (optimize_loop_off segments context_range dest_language
              (seq 0 (length segments)) bt w) as [r Hoff].
  rewrite Hrun in Hoff. injection Hoff as <- -> ->.
  assert (buf = bt) as ->.
  { apply (optimize_loop_keeps_buffer segments false context_range dest_language)
      with (indices := seq 0 (length segments)) (w := w) (fs := fs);
      [|now rewrite Hrun].
    intros i bt0 w0 fseg bt'. unfold optimize_step.
    destruct (segments !! i), (bt0 !! i); unfold result, ret; cbn [fst];
      congruence. }
  exists fs. rewrite Hrun. repeat split.
  - now rewrite firstn_all in Hslots.
  - now rewrite Htake.
Qed.

(** X19: when the backend can be set up but all requests to it fail, the
    optimization stage with [use_llm] degrades to the same result: every
    final text is the basic translation and [basic_translations] is as
    before. *)
Theorem optimize_backend_down
    (segments : list Segment) (bt : list str) (context_range : nat)
    (dest_language : str) (w : World) :
  (forall w', (backend_open w').1 = true) ->
  (forall p' w', (backend_chat p' w').1 = None) ->
  length segments <= length bt ->
  exists final,
    result (optimize_translations_with_context segments bt true context_range
              dest_language w)
    = Some (final, bt)
    /\ Forall2 same_slot segments final
    /\ text <$> final = take (length segments) bt.
Proof.
  intros Hopen Hdown Hlen. unfold optimize_translations_with_context.
  destruct (optimize_loop_prefix segments true context_range dest_language bt w
              (fun _ => Hopen) Hlen (length segments))
    as (fs & buf & w' & evs & Hrun & Hslots & _ & Htake & _); [lia|].
  assert (buf = bt) as ->.
  { apply (optimize_loop_keeps_buffer segments true context_range dest_language)
      with (indices := seq 0 (length segments)) (w := w) (fs := fs);
      [|now rewrite Hrun].
    intros i bt0 w0 fseg bt'. destruct (segments !! i) as [seg|] eqn:Hseg.
    - destruct (bt0 !! i) as [basic|] eqn:Hbasic.
      + rewrite (optimize_step_backend_down _ _ _ _ _ _ _ _ Hdown (Hopen w0)
                   Hseg Hbasic).
        congruence.
      + rewrite (optimize_step_none _ _ _ _ _ _ _ Hbasic). discriminate.
    - unfold optimize_step. rewrite Hseg. discriminate. }
  exists fs. rewrite Hrun. repeat split.
  - now rewrite firstn_all in Hslots.
  - now rewrite Htake.
Qed.

(** X20: when it returns, which it does whenever the backend can be set
    up or is not used, the optimization stage has written its choices into
    the caller's list: after the call [basic_translations] holds the final
    texts at the indices of the segments and its old entries beyond
    them. *)
Theorem optimize_overwrites_basic_translations
    (segments : list Segment) (bt0 : list str) (use_llm : bool)
    (context_range : nat) (dest_language : str) (w : World) :
  (use_llm = true -> forall w', (backend_open w').1 = true) ->
  length segments <= length bt0 ->
  exists final bt_end,
    result (optimize_translations_with_context segments bt0 use_llm
              context_range dest_language w)
    = Some (final, bt_end)
    /\ bt_end = (text <$> final) ++ drop (length segments) bt0
    /\ length bt_end = length bt0.
Proof.
  intros Hopen Hlen. unfold optimize_translations_with_context.
  destruct (optimize_loop_prefix segments use_llm context_range dest_language
              bt0 w Hopen Hlen (length segments))
    as (fs & buf & w' & evs & -> & _ & Hlb & Htake & Hdrop); [lia|].
  exists fs, buf. repeat split; [|exact Hlb].
  now rewrite <- Htake, <- Hdrop, take_drop.
Qed.

Lemma optimize_loop_short segments use_llm cr dest n : forall k bt w,
  k <= length bt -> length bt < k + n ->
  result (optimize_loop segments use_llm cr dest (seq k n) bt w) = None.
Proof.
  induction n as [|n IH]; intros k bt w Hk Hshort; [lia|].
  cbn [seq].
  destruct (optimize_step segments use_llm cr dest k bt w)
    as [[[[fseg bt1]|] w1] e1] eqn:Hs.
  - rewrite (optimize_loop_cons _ _ _ _ _ _ _ _ _ _ _ _ Hs).
    destruct (bt !! k) as [basic|] eqn:Hbasic;
      [|rewrite (optimize_step_none _ _ _ _ _ _ _ Hbasic) in Hs; discriminate].
    apply lookup_lt_Some in Hbasic.
    pose proof (optimize_step_length _ _ _ _ _ _ _ _ _ _ _ Hs) as Hlen.
    specialize (IH (S k) bt1 w1).
    destruct (optimize_loop segments use_llm cr dest (seq (S k) n) _ _)
      as [[[[fs b]|] w2] e2]; unfold result in *; cbn [fst] in *;
      [|reflexivity].
    assert (Some (fs, b) = None) by (apply IH; lia). discriminate.
  - cbn [optimize_loop]. unfold bind. now rewrite Hs.
Qed.

(** X21: with fewer basic translations than segments the optimization
    stage does not return: it stops with the IndexError of
    [basic_translations[i]] at the first segment without one. *)
Theorem optimize_index_error
    (segments : list Segment) (bt : list str) (use_llm : bool)
    (context_range : nat) (dest_language : str) (w : World) :
  length bt < length segments ->
  result (optimize_translations_with_context segments bt use_llm context_range
            dest_language w)
  = None.
Proof.
  intros Hshort. apply optimize_loop_short; lia.
Qed.


Lemma optimize_translation_raises original basic context_text dest w :
  (backend_open w).1 = false ->
  optimize_translation original basic context_text dest w
  = (None, (backend_open w).2, []).
Proof.
  intros Hopen. unfold optimize_translation, bind.
  now rewrite chat_llm_run, Hopen.
Qed.

(** X29: when the backend cannot be set up, the optimization stage with
    [use_llm] raises at its first segment, before any request is sent:
    [optimize_translation] has no handler for the exception of
    [chat_llm]. *)
Theorem optimize_raises_without_backend
    (segments : list Segment) (bt : list str) (context_range : nat)
    (dest_language : str) (w : World) :
  segments <> [] ->
  (backend_open w).1 = false ->
  let run :=
    optimize_translations_with_context segments bt true context_range
      dest_language w in
  result run = None /\ events run = [].
Proof.
  intros Hne Hopen. cbn zeta. unfold optimize_translations_with_context.
  destruct segments as [|seg rest]; [contradiction|].
  cbn [length seq optimize_loop]. unfold bind, optimize_step.
  cbn [lookup list_lookup]. destruct (bt !! 0) as [basic|]; [|now split].
  unfold bind. rewrite (optimize_translation_raises _ _ _ _ _ Hopen).
  now split.
Qed.

End MoreRuns.

Lemma llm_correct_segments_backend_down_witness :
  let segments :=
    [mkSegment 0 1 (lit " helo ") (lit "A"); mkSegment 1 2 (lit "") []] in
  (forall p' w', (@backend_chat offline p' w').1 = None)
  /\ result (@llm_correct_segments offline segments 10 tt) = segments.
Proof.
  cbn zeta. split; [intros p' w'; reflexivity|].
  apply (@llm_correct_segments_backend_down offline). intros p' w'. reflexivity.
Defined.

Lemma llm_merge_segments_blocked_witness :
  let segments :=
    [mkSegment 0 1 (lit "one") []; mkSegment 1 2 (lit " ") [];
     mkSegment 2 5 (lit "two") []; mkSegment 5 9 (lit "three") []] in
  (forall i seg1 seg2,
     segments !! i = Some seg1 -> segments !! (i + 1) = Some seg2 ->
     may_merge seg1 seg2 = false)
  /\ result (@llm_merge_segments scripted segments
               (mkScript [Some (lit "Merge")] []))
     = Some segments
  /\ events (@llm_merge_segments scripted segments
               (mkScript [Some (lit "Merge")] []))
     = [].
Proof.
  cbn zeta.
  assert (Hno : forall i seg1 seg2,
    [mkSegment 0 1 (lit "one") []; mkSegment 1 2 (lit " ") [];
     mkSegment 2 5 (lit "two") []; mkSegment 5 9 (lit "three") []] !! i
    = Some seg1 ->
    [mkSegment 0 1 (lit "one") []; mkSegment 1 2 (lit " ") [];
     mkSegment 2 5 (lit "two") []; mkSegment 5 9 (lit "three") []] !! (i + 1)
    = Some seg2 ->
    may_merge seg1 seg2 = false).
  { intros i seg1 seg2 H1 H2.
    do 3 (destruct i as [|i];
            [cbn [lookup list_lookup Nat.add] in H1, H2;
             injection H1 as <-; injection H2 as <-; vm_compute; reflexivity|]).
    destruct i; discriminate. }
  split; [exact Hno|].
  exact (@llm_merge_segments_blocked scripted _ (mkScript [Some (lit "Merge")] [])
           Hno).
Defined.


Lemma translation_without_failures_witness :
  let segments := [mkSegment 0 2 (lit "hello") []; mkSegment 2 3 (lit "") []] in
  (forall text w',
     exists s, (@translate_func echoing text (lit "en") (lit "zh") w').1
               = Some (VStr s))
  /\ events (@basic_translate_segments echoing segments (lit "en") (lit "zh")
               false tt)
     = (fun seg => Translate (text seg) (lit "en") (lit "zh")) <$> segments.
Proof.
  cbn zeta. split; [intros text w'; now exists text|].
  apply (@translation_without_failures echoing). intros text w'. now exists text.
Defined.

Lemma optimize_without_llm_witness :
  let segments := [mkSegment 0 2 (lit "hello") (lit "A"); mkSegment 2 3 (lit "") []] in
  let bt := [lit "ni hao"; lit ""; lit "spare"] in
  length segments <= length bt
  /\ exists final,
       @optimize_translations_with_context scripted segments bt false 10
         (lit "zh") (mkScript [Some (lit "x")] [])
       = (Some (final, bt), mkScript [Some (lit "x")] [], [])
       /\ Forall2 same_slot segments final
       /\ text <$> final = take (length segments) bt.
Proof.
  cbn zeta. split; [vm_compute; lia|].
  apply (@optimize_without_llm scripted). vm_compute. lia.
Defined.

Lemma optimize_backend_down_witness :
  let segments := [mkSegment 0 2 (lit "hello") (lit "A"); mkSegment 2 3 (lit "") []] in
  let bt := [lit "ni hao"; lit ""] in
  (forall w', (@backend_open offline w').1 = true)
  /\ (forall p' w', (@backend_chat offline p' w').1 = None)
  /\ length segments <= length bt
  /\ exists final,
       result (@optimize_translations_with_context offline segments bt true 10
                 (lit "zh") tt)
       = Some (final, bt)
       /\ Forall2 same_slot segments final
       /\ text <$> final = take (length segments) bt.
Proof.
  cbn zeta. split; [intros w'; reflexivity|].
  split; [intros p' w'; reflexivity|]. split; [vm_compute; lia|].
  apply (@optimize_backend_down offline).
  - intros w'. reflexivity.
  - intros p' w'. reflexivity.
  - vm_compute. lia.
Defined.

Lemma optimize_overwrites_basic_translations_witness :
  let segments := [mkSegment 0 2 (lit "hello") []; mkSegment 2 3 (lit "world") []] in
  let bt0 := [lit "a"; lit "b"; lit "spare"] in
  let w := mkScript [Some (lit "A"); Some (lit "1"); Some (lit "B"); Some (lit "0")] [] in
  (forall w', (@backend_open scripted w').1 = true)
  /\ length segments <= length bt0
  /\ exists final bt_end,
       result (@optimize_translations_with_context scripted segments bt0 true 10
                 (lit "zh") w)
       = Some (final, bt_end)
       /\ bt_end = (text <$> final) ++ drop (length segments) bt0
       /\ length bt_end = length bt0.
Proof.
  cbn zeta. split; [intros w'; reflexivity|]. split; [vm_compute; lia|].
  apply (@optimize_overwrites_basic_translations scripted).
  - intros _ w'. reflexivity.
  - vm_compute. lia.
Defined.

Lemma optimize_index_error_witness :
  let segments := [mkSegment 0 2 (lit "hello") []; mkSegment 2 3 (lit "world") []] in
  length [lit "a"] < length segments
  /\ result (@optimize_translations_with_context scripted segments [lit "a"] true
               10 (lit "zh") (mkScript [Some (lit "A"); Some (lit "1")] []))
     = None.
Proof.
  cbn zeta. split; [vm_compute; lia|].
  apply (@optimize_index_error scripted). vm_compute. lia.
Defined.


Lemma optimize_raises_without_backend_witness :
  let segments := [mkSegment 0 2 (lit "hello") []; mkSegment 2 3 (lit "world") []] in
  segments <> []
  /\ (@backend_open no_backend tt).1 = false
  /\ result (@optimize_translations_with_context no_backend segments
               [lit "hello"; lit "world"] true 10 (lit "zh") tt) = None
  /\ events (@optimize_translations_with_context no_backend segments
               [lit "hello"; lit "world"] true 10 (lit "zh") tt) = [].
Proof.
  cbn zeta. split; [discriminate|]. split; [reflexivity|].
  apply (@optimize_raises_without_backend no_backend
           [mkSegment 0 2 (lit "hello") []; mkSegment 2 3 (lit "world") []]
           [lit "hello"; lit "world"] 10 (lit "zh") tt);
    [discriminate | reflexivity].
Defined.

(** ** niutrans_translate *)

Section Niutrans.
Context `{Network}.








End Niutrans.




(** ** async_basic_translate *)

Section Google.
Context `{Translator}.



Lemma google_retry_known_source text dest remaining : forall src g,
  truthy src = true ->
  Forall (fun e => match e with
                   | GDetect _ => False
                   | GTranslate _ s _ => s = src
                   | GSleep _ => True
                   end)
    (google_retry remaining text src dest g).2.
Proof.
  induction remaining as [|k IH]; intros src g Hsrc; cbn [google_retry].
  - constructor.
  - rewrite Hsrc. destruct (google_translate text src dest g) as [[translated|] g1].
    + repeat constructor.
    + specialize (IH src g1 Hsrc).
      destruct (google_retry k text src dest g1) as [[res g2] evs].
      repeat constructor. exact IH.
Qed.

Lemma normalize_google_nonempty (src : list N) :
  is_blank src = false ->
  truthy src = true /\ truthy (normalize_language_code_for_google src) = true.
Proof.
  intros Hb. split.
  - destruct src; [discriminate | reflexivity].
  - unfold normalize_language_code_for_google.
    destruct (google_mapping !! strip (lower src)) as [v|] eqn:Hk;
      cbn [default from_option id].
    + unfold google_mapping in Hk. apply elem_of_list_to_map_2 in Hk.
      apply list_elem_of_In in Hk. revert Hk.
      match goal with
      | |- In _ ?L -> _ =>
          assert (Hall : forallb (fun p : str * str => truthy p.2) L = true)
            by (vm_compute; reflexivity)
      end.
      intros Hk. rewrite forallb_forall in Hall. exact (Hall _ Hk).
    + rewrite <- lower_strip, lower_truthy. unfold is_blank in Hb.
      now destruct (strip src).
Qed.

(** X25: when a source language is given (a string that is not blank),
    [async_basic_translate] never calls [detect], and every call of
    [translate] names the normalized source language. *)
Theorem async_basic_translate_known_source (text dest src : str) (g : Goog) :
  is_blank src = false ->
  Forall (fun e => match e with
                   | GDetect _ => False
                   | GTranslate _ s _ => s = normalize_language_code_for_google src
                   | GSleep _ => True
                   end)
    (async_basic_translate text dest src g).2.
Proof.
  intros Hb. destruct (normalize_google_nonempty src Hb) as [Hs Hn].
  unfold async_basic_translate. rewrite Hs.
  now apply google_retry_known_source.
Qed.

Lemma google_retry_detects_once text dest remaining : forall src g pre t s d post,
  (google_retry remaining text src dest g).2 = pre ++ GTranslate t s d :: post ->
  truthy s = true ->
  Forall (fun e => is_gdetect e = false) post.
Proof.
  induction remaining as [|k IH]; intros src g pre t s d post; cbn [google_retry].
  - intros Heq. now destruct pre.
  - destruct (truthy src) eqn:Hsrc.
    + pose proof (google_retry_known_source text dest (S k) src g Hsrc) as Hall.
      cbn [google_retry] in Hall. rewrite Hsrc in Hall.
      destruct (google_translate text src dest g) as [[translated|] g1];
        intros Heq _; rewrite Heq in Hall;
        apply Forall_app in Hall as [_ Hall]; apply Forall_cons in Hall as [_ Hall];
        (eapply Forall_impl; [exact Hall|]); now intros [].
    + destruct (detect text g) as [[lang|] g1].
      * destruct (google_translate text lang dest g1) as [[translated|] g2].
        -- cbn [snd]. intros Heq _.
           destruct pre as [|e [|e' pre]]; simplify_eq/=; [constructor|].
           now destruct pre.
        -- specialize (IH lang g2).
           pose proof (google_retry_known_source text dest k lang g2) as Hknown.
           destruct (google_retry k text lang dest g2) as [[res g3] evs].
           cbn [snd] in *. intros Heq Hs.
           destruct pre as [|e [|e' [|e'' pre]]]; simplify_eq/=.
           ++ constructor; [reflexivity|].
              eapply Forall_impl; [exact (Hknown Hs)|]. now intros [].
           ++ now apply (IH pre t s d post).
      * specialize (IH src g1).
        destruct (google_retry k text src dest g1) as [[res g2] evs].
        cbn [snd] in *. intros Heq Hs.
        destruct pre as [|e [|e' pre]]; simplify_eq/=.
        now apply (IH pre t s d post).
Qed.

(** X26: once [async_basic_translate] has called [translate] with a source
    language that is not empty, given or detected, it does not call
    [detect] again in the attempts that follow. *)
Theorem async_basic_translate_detects_once
    (text dest src : str) (g : Goog) (pre post : list GEvent) (t s d : str) :
  (async_basic_translate text dest src g).2 = pre ++ GTranslate t s d :: post ->
  truthy s = true ->
  Forall (fun e => is_gdetect e = false) post.
Proof. apply google_retry_detects_once. Qed.

Lemma google_retry_down text dest remaining : forall src g,
  (forall t s d g', (google_translate t s d g').1 = None) ->
  (google_retry remaining text src dest g).1.1 = text.
Proof.
  intros src g Hdown. revert src g.
  induction remaining as [|k IH]; intros src g; cbn [google_retry];
    [reflexivity|].
  destruct (truthy src).
  - pose proof (Hdown text src dest g) as Hn.
    destruct (google_translate text src dest g) as [r g1]. cbn in Hn. subst r.
    specialize (IH src g1).
    now destruct (google_retry k text src dest g1) as [[res g2] evs].
  - destruct (detect text g) as [[lang|] g1].
    + pose proof (Hdown text lang dest g1) as Hn.
      destruct (google_translate text lang dest g1) as [r g2]. cbn in Hn. subst r.
      specialize (IH lang g2).
      now destruct (google_retry k text lang dest g2) as [[res g3] evs].
    + specialize (IH src g1).
      now destruct (google_retry k text src dest g1) as [[res g2] evs].
Qed.

Lemma google_func_text text src dest (w : @World google_capabilities) :
  @translate_func google_capabilities text src dest w
  = (Some (VStr (async_basic_translate text dest src w.1).1.1),
     ((async_basic_translate text dest src w.1).1.2,
      w.2 ++ (async_basic_translate text dest src w.1).2)).
Proof.
  cbn [translate_func google_capabilities].
  now destruct (async_basic_translate text dest src w.1) as [[r g] evs].
Qed.

Lemma mapM_result_const {A B} (f : A -> @M google_capabilities B) (h : A -> B)
    (l : list A) :
  (forall a w, result (f a w) = h a) ->
  forall w, result (mapM f l w) = h <$> l.
Proof.
  intros Hf. induction l as [|a l IH]; intros w; [reflexivity|].
  cbn [mapM]. rewrite result_bind, result_bind. unfold result at 1, ret.
  cbn [fst]. now rewrite Hf, IH.
Qed.

(** X27: with [async_basic_translate] as the translation function of the
    asynchronous mode, the retry loop of the stage never comes into play:
    the function is called once per segment and the stage never sleeps;
    and when every call of [translate] fails, the translations that the
    stage returns are the original texts. *)
Theorem google_stage (segments : list Segment) (src dest : str)
    (w : @World google_capabilities) :
  let run :=
    @basic_translate_segments google_capabilities segments src dest true w in
  events run = (fun seg => Translate (text seg) src dest) <$> segments
  /\ ((forall t s d g', (google_translate t s d g').1 = None) ->
      result run = (fun seg => VStr (text seg)) <$> segments).
Proof.
  cbn zeta. split.
  - rewrite basic_translate_segments_tasks.
    apply (@tasks_without_failures google_capabilities).
    intros text w'. rewrite google_func_text. now eexists.
  - intros Hdown. rewrite basic_translate_segments_tasks.
    apply mapM_result_const. intros seg w'.
    rewrite (translate_task_text (H := google_capabilities) true src dest seg w'
               (async_basic_translate (text seg) dest src w'.1).1.1)
      by now rewrite google_func_text.
    unfold result. cbn [fst]. f_equal. unfold async_basic_translate.
    now apply google_retry_down.
Qed.

End Google.

Lemma async_basic_translate_known_source_witness :
  is_blank (lit "EN") = false
  /\ Forall (fun e => match e with
                      | GDetect _ => False
                      | GTranslate _ s _ => s = lit "en"
                      | GSleep _ => True
                      end)
       (@async_basic_translate google_down (lit "hello") (lit "zh") (lit "EN") tt).2.
Proof.
  split; [vm_compute; reflexivity|].
  apply (@async_basic_translate_known_source google_down (lit "hello") (lit "zh")
           (lit "EN") tt).
  vm_compute. reflexivity.
Defined.

Lemma async_basic_translate_detects_once_witness :
  let evs := (@async_basic_translate google_down (lit "hello") (lit "zh")
                (lit "en") tt).2 in
  evs = [] ++ GTranslate (lit "hello") (lit "en") (lit "zh-cn") :: drop 1 evs
  /\ truthy (lit "en") = true
  /\ Forall (fun e => is_gdetect e = false) (drop 1 evs).
Proof.
  cbn zeta. split; [vm_compute; reflexivity|]. split; [reflexivity|].
  apply (@async_basic_translate_detects_once google_down (lit "hello") (lit "zh")
           (lit "en") tt [] _ (lit "hello") (lit "en") (lit "zh-cn")).
  - vm_compute. reflexivity.
  - reflexivity.
Defined.

Lemma google_stage_witness :
  let segments := [mkSegment 0 1 (lit "hello") []; mkSegment 1 2 (lit "world") []] in
  (forall t s d g', (@google_translate google_down t s d g').1 = None)
  /\ result (@basic_translate_segments (@google_capabilities google_down) segments
               (lit "en") (lit "zh") true (tt, []))
     = [VStr (lit "hello"); VStr (lit "world")].
Proof.
  cbn zeta. split; [intros t s d g'; reflexivity|].
  destruct (@google_stage google_down
              [mkSegment 0 1 (lit "hello") []; mkSegment 1 2 (lit "world") []]
              (lit "en") (lit "zh") (tt, [])) as [_ Hdown].
  apply Hdown. intros t s d g'. reflexivity.
Defined.
